(** * Import scanner: dependency-graph engine of [scanner.py]

    A shallow embedding of the name resolver, the source walker, the import
    classifier, the graph builder and the cycle detector of [scanner.py],
    with the properties of the specification proved (or refuted) on it.

    Conventions of the embedding.
    - Python [str] is [string]; Python [int] is [Z] where it can be negative
      ([level]) and [nat] where it only counts upwards ([index]).
    - A [dict] that is iterated is an association list in insertion order;
      a [dict] or [set] that is only looked up is a [gmap] or [gset].
    - A Python [set] that is iterated is the list of its members in the order
      of iteration, which Python leaves unspecified: the theorems hold for
      every order.
    - Exceptions are explicit: a computation returns [Ok] or [Raise].
    - The recursion of [dfs] is as deep as the interpreter lets it be:
      [limit] is the number of nested calls of [dfs] that it allows where
      [strongly_connected_components] is called, which is its recursion
      limit less the frames in use. One call more raises
      [RecursionError]. *)

From stdpp Require Import gmap strings list fin_maps sorting relations pretty.
From Stdlib Require Import ZArith Ascii.

Open Scope string_scope.
Open Scope list_scope.
Open Scope nat_scope.
Set Warnings "-register-all".
Set Warnings "-clear-no-such-hyp".

(** ** Outcomes of a computation *)

Inductive exn := KeyError | IndexError | RecursionError.

Inductive result (A : Type) :=
| Ok (a : A)
| Raise (e : exn).
Arguments Ok {A} a.
Arguments Raise {A} e.

#[global] Instance result_ret : MRet result := fun A a => Ok a.
#[global] Instance result_bind : MBind result := fun A B f m =>
  match m with
  | Ok a => f a
  | Raise e => Raise e
  end.

(** [for x in l: body] over a state. *)
Fixpoint for_each {A S : Type} (l : list A) (body : A -> S -> result S) (s : S)
  : result S :=
  match l with
  | [] => Ok s
  | x :: l' => s' ← body x s; for_each l' body s'
  end.

(** [m[k]]: a missing key raises. *)
Definition getitem (m : gmap string nat) (k : string) : result nat :=
  match m !! k with
  | Some n => Ok n
  | None => Raise KeyError
  end.

(** ** Cycle detector: [strongly_connected_components] *)

(** [graph: Dict[str, set]], keys in insertion order, each successor set in
    its order of iteration. *)
Definition graph := list (string * list string).

(** [for v in graph] *)
Definition keys (g : graph) : list string := g.*1.

(** [graph.get(v, ())] *)
Fixpoint graph_get (g : graph) (v : string) : list string :=
  match g with
  | [] => []
  | (k, ws) :: g' => if decide (k = v) then ws else graph_get g' v
  end.

(** The variables that [dfs] shares with its enclosing function. The stack
    is kept top first: [stack.append] conses, [stack.pop] takes the head. *)
Record state := State {
  index : nat;
  stack : list string;
  onstack : gset string;
  indices : gmap string nat;
  lowlink : gmap string nat;
  sccs : list (list string)
}.

Definition init : state :=
  {| index := 0; stack := []; onstack := ∅; indices := ∅; lowlink := ∅;
     sccs := [] |}.

Definition set_lowlink (v : string) (n : nat) (s : state) : state :=
  {| index := index s; stack := stack s; onstack := onstack s;
     indices := indices s; lowlink := <[v := n]> (lowlink s); sccs := sccs s |}.

(** Lines 64-67: number [v] and push it. *)
Definition enter (v : string) (s : state) : state :=
  {| index := S (index s); stack := v :: stack s;
     onstack := {[v]} ∪ onstack s;
     indices := <[v := index s]> (indices s);
     lowlink := <[v := index s]> (lowlink s);
     sccs := sccs s |}.

(** Lines 76-81: [while True: w = stack.pop(); onstack.remove(w);
    comp.append(w); if w == v: break]. *)
Fixpoint pop_component (v : string) (stk : list string) (ons : gset string)
  (comp : list string) : result (list string * gset string * list string) :=
  match stk with
  | [] => Raise IndexError
  | w :: stk' =>
      if decide (w ∈ ons) then
        if decide (w = v) then Ok (stk', ons ∖ {[w]}, comp ++ [w])
        else pop_component v stk' (ons ∖ {[w]}) (comp ++ [w])
      else Raise KeyError
  end.

(** Lines 74-83. *)
Definition close (v : string) (s : state) : result state :=
  lv ← getitem (lowlink s) v;
  iv ← getitem (indices s) v;
  if decide (lv = iv) then
    '(stk, ons, comp) ← pop_component v (stack s) (onstack s) [];
    Ok {| index := index s; stack := stk; onstack := ons;
          indices := indices s; lowlink := lowlink s;
          sccs := if decide (1 < length comp) then sccs s ++ [comp]
                  else sccs s |}
  else Ok s.

(** Lines 69-73: the body of [for w in graph.get(v, ())], with the
    recursive call as a parameter. *)
Definition visit (rec : string -> state -> result state) (v w : string)
  (s : state) : result state :=
  if decide (w ∉ dom (indices s)) then
    s' ← rec w s;
    lv ← getitem (lowlink s') v;
    lw ← getitem (lowlink s') w;
    Ok (set_lowlink v (lv `min` lw) s')
  else if decide (w ∈ onstack s) then
    lv ← getitem (lowlink s) v;
    iw ← getitem (indices s) w;
    Ok (set_lowlink v (lv `min` iw) s)
  else Ok s.

(** Lines 62-83. [limit] is the number of nested calls of [dfs] that the
    interpreter allows from here on: with none left the call raises
    [RecursionError], which nothing catches. *)
Fixpoint dfs (g : graph) (limit : nat) (v : string) (s : state) : result state :=
  match limit with
  | 0 => Raise RecursionError
  | S limit' =>
      s' ← for_each (graph_get g v) (visit (dfs g limit') v) (enter v s);
      close v s'
  end.

(** Lines 85-87. *)
Definition visit_root (g : graph) (limit : nat) (v : string) (s : state)
  : result state :=
  if decide (v ∉ dom (indices s)) then dfs g limit v s else Ok s.

(** Every string that occurs in the graph, as a key or as a successor. *)
Definition vertices (g : graph) : list string := keys g ++ concat g.*2.

(** Lines 53-88. [limit] is the number of nested calls of [dfs] that the
    interpreter allows inside this call. *)
Definition strongly_connected_components (limit : nat) (g : graph)
  : result (list (list string)) :=
  s ← for_each (keys g) (visit_root g limit) init;
  Ok (sccs s).

Definition example_graph : graph :=
  [("A", ["B"]); ("B", ["C"]); ("C", ["A"]); ("D", [])].

(** *** Reachability and components *)

Definition edge (g : graph) (x y : string) : Prop := y ∈ graph_get g x.

Definition reach (g : graph) : relation string := rtc (edge g).

Definition mutually_reachable (g : graph) (x y : string) : Prop :=
  reach g x y ∧ reach g y x.

(** A maximal set of mutually reachable nodes, listed without repetition. *)
Definition is_scc (g : graph) (c : list string) : Prop :=
  c ≠ [] ∧ NoDup c ∧
  ∀ x, x ∈ c → ∀ y, y ∈ c ↔ mutually_reachable g x y.

Definition pairwise_disjoint (r : list (list string)) : Prop :=
  ∀ i j c1 c2, r !! i = Some c1 → r !! j = Some c2 → i ≠ j →
    ∀ x, x ∈ c1 → x ∉ c2.

(** *** Invariants of the traversal *)

(** Numbered and no longer on the stack: its component is closed. *)
Definition finished (s : state) (x : string) : Prop :=
  x ∈ dom (indices s) ∧ x ∉ stack s.

Definition rank (s : state) (x : string) : nat := default 0 (indices s !! x).
Definition low (s : state) (x : string) : nat := default 0 (lowlink s !! x).

Record wf (g : graph) (s : state) : Prop := {
  wf_onstack : ∀ x, x ∈ onstack s ↔ x ∈ stack s;
  wf_stack_dom : ∀ x, x ∈ stack s → x ∈ dom (indices s);
  wf_low_dom : dom (lowlink s) = dom (indices s);
  wf_index : ∀ x, x ∈ dom (indices s) → rank s x < index s;
  wf_sorted :
    StronglySorted (λ x y, rank s y < rank s x ∧ reach g y x) (stack s);
  wf_closed : ∀ x y, finished s x → edge g x y → finished s y;
  wf_sound : ∀ c, c ∈ sccs s →
    2 ≤ length c ∧ is_scc g c ∧ ∀ x, x ∈ c → finished s x;
  wf_complete : ∀ x y, finished s x → x ≠ y → mutually_reachable g x y →
    ∃ c, c ∈ sccs s ∧ x ∈ c;
  wf_disjoint : pairwise_disjoint (sccs s)
}.

(** Where an edge out of the segment [N] pushed above [v] may lead: into the
    segment, to [v], to a finished node, or to a node below [v] on the stack
    that the low-link of [v] accounts for. *)
Definition accounted (N : list string) (v : string) (s0 s : state) (b : string)
  : Prop :=
  b ∈ N ∨ b = v ∨ finished s b ∨ (b ∈ stack s0 ∧ low s v ≤ rank s b).

(** State of [dfs(v)], entered in [s0], after the successors [ws]. *)
Record loop_inv (g : graph) (v : string) (s0 : state) (ws : list string)
  (s : state) : Prop := {
  li_wf : wf g s;
  li_indices : indices s0 ⊆ indices s;
  li_lowlink : lowlink s0 ⊆ lowlink s;
  li_rank : indices s !! v = Some (index s0);
  li_finished : ∀ x, finished s0 x → finished s x;
  li_stack : ∃ N, stack s = N ++ v :: stack s0 ∧
    (∀ a, a ∈ N → reach g v a ∧ reach g a v) ∧
    (∃ y, y ∈ v :: stack s0 ∧ rank s y = low s v ∧ reach g v y) ∧
    (∀ a b, a ∈ N → edge g a b → accounted N v s0 s b) ∧
    (∀ b, b ∈ ws → accounted N v s0 s b)
}.

(** State [s'] in which [dfs(v)], entered in [s], returns. *)
Record dfs_post (g : graph) (v : string) (s s' : state) : Prop := {
  post_wf : wf g s';
  post_indices : indices s ⊆ indices s';
  post_lowlink : lowlink s ⊆ lowlink s';
  post_rank : indices s' !! v = Some (index s);
  post_finished : ∀ x, finished s x → finished s' x;
  post_stack : ∃ N, stack s' = N ++ stack s ∧
    (∀ a, a ∈ N → reach g v a ∧ ∃ y, y ∈ stack s ∧ reach g a y) ∧
    ((N = [] ∧ low s' v = index s) ∨
     (v ∈ N ∧ ∃ y, y ∈ stack s ∧ rank s' y = low s' v ∧ reach g v y)) ∧
    (∀ a b, a ∈ N → edge g a b →
       b ∈ N ∨ finished s' b ∨ (b ∈ stack s ∧ low s' v ≤ rank s' b))
}.

(** What [dfs(v)] needs of the state [s] it is entered in. *)
Record dfs_pre (g : graph) (limit : nat) (v : string) (s : state) : Prop := {
  pre_wf : wf g s;
  pre_fresh : v ∉ dom (indices s);
  pre_vertex : v ∈ vertices g;
  pre_reach : ∀ y, y ∈ stack s → reach g y v;
  pre_limit :
    size ((list_to_set (vertices g) : gset string) ∖ dom (indices s)) ≤ limit
}.

(** ** Name resolver *)

(** [s.split(".")]: never empty. *)
Fixpoint split_dot (s : string) : list string :=
  match s with
  | EmptyString => [EmptyString]
  | String c s' =>
      if Ascii.eqb c "."%char then EmptyString :: split_dot s'
      else match split_dot s' with
           | seg :: segs => String c seg :: segs
           | [] => [String c EmptyString]
           end
  end.

(** [".".join(l)] *)
Fixpoint join_dot (l : list string) : string :=
  match l with
  | [] => EmptyString
  | [x] => x
  | x :: l' => x +:+ "." +:+ join_dot l'
  end.

(** [l[:k]] for any integer [k]: a negative [k] counts from the end, and an
    index out of range is clipped. *)
Definition slice_to {A : Type} (l : list A) (k : Z) : list A :=
  if (k <? 0)%Z then take (Z.to_nat (Z.of_nat (length l) + k)) l
  else take (Z.to_nat k) l.

(** Lines 40-50. [if level:] and [if module:] test for a non-zero number and
    for a string that is neither [None] nor empty. *)
Definition resolve_from_import (current_fqn : string) (level : Z)
  (module : option string) : string :=
  let pkg_parts := slice_to (split_dot current_fqn) (-1) in
  let pkg_parts :=
    if decide (level ≠ 0%Z) then
      if decide (1 < level)%Z then slice_to pkg_parts (- level + 1)
      else pkg_parts
    else pkg_parts in
  match module with
  | Some m =>
      if decide (m ≠ EmptyString) then join_dot (pkg_parts ++ [m])
      else join_dot pkg_parts
  | None => join_dot pkg_parts
  end.

(** [s.endswith(suffix)] *)
Definition endswith (s suffix : string) : bool :=
  (String.length suffix <=? String.length s)
  && String.eqb
       (String.substring (String.length s - String.length suffix)
          (String.length suffix) s)
       suffix.

(** Index of the last ["."] of a name: [name.rfind(".")]. *)
Fixpoint rfind_dot (s : string) : option nat :=
  match s with
  | EmptyString => None
  | String c s' =>
      match rfind_dot s' with
      | Some i => Some (S i)
      | None => if Ascii.eqb c "."%char then Some 0 else None
      end
  end.

(** [PurePath.with_suffix] with an empty suffix, on the last component of a
    path, as pathlib has it: the suffix starts at the last dot, unless that
    dot opens or ends the name. *)
Definition with_suffix_empty (name : string) : string :=
  match rfind_dot name with
  | Some i =>
      if (0 <? i) && (i <? String.length name - 1) then String.substring 0 i name
      else name
  | None => name
  end.

(** A path below the project root is the list of its components, the file
    name last. *)
Definition rel_path := list string.

(** Lines 31-37, on the path relative to the project root. The scan calls
    it on the paths of files only; they have a last component. *)
Definition to_fqn (file_path : rel_path) : string :=
  match reverse file_path with
  | [] => join_dot []
  | name :: dirs => join_dot (reverse dirs ++ [with_suffix_empty name])
  end.

(** ** Syntax trees *)

(** What [ast.parse] returns, as far as the scanner looks at it: [Import]
    with the names of its aliases, [ImportFrom] with its [module] and
    [level], and every other node with its child nodes in the order in which
    [ast.iter_child_nodes] yields them, which for statements is the order of
    the source text. The [alias] children of an import are leaves that the
    scanner skips; they are left out. *)
Inductive ast :=
| Import (names : list string)
| ImportFrom (module : option string) (level : Z)
| Node (children : list ast).

Definition iter_child_nodes (n : ast) : list ast :=
  match n with
  | Node children => children
  | _ => []
  end.

Fixpoint ast_size (n : ast) : nat :=
  match n with
  | Node children => S (list_sum (map ast_size children))
  | _ => 1
  end.

(** [ast.walk]: [todo = deque([node])], then [node = todo.popleft();
    todo.extend(iter_child_nodes(node)); yield node] while [todo] is not
    empty. Each round takes one node off, so the size of the tree bounds the
    number of rounds. *)
Fixpoint walk_todo (rounds : nat) (todo : list ast) : list ast :=
  match rounds with
  | 0 => []
  | S rounds' =>
      match todo with
      | [] => []
      | node :: todo' =>
          node :: walk_todo rounds' (todo' ++ iter_child_nodes node)
      end
  end.

Definition ast_walk (tree : ast) : list ast :=
  walk_todo (ast_size tree) [tree].

(** The nodes in the order of the source text: a statement before the
    statements nested in it, and before the statements that follow it. *)
Fixpoint source_order (n : ast) : list ast :=
  match n with
  | Node children => n :: flat_map source_order children
  | _ => [n]
  end.

(** What lines 159-164 append for one node. *)
Definition import_targets (fqn : string) (n : ast) : list string :=
  match n with
  | Import names => names
  | ImportFrom module level => [resolve_from_import fqn level module]
  | Node _ => []
  end.

(** ** Scanner *)

(** An insertion-ordered [dict] with string keys. *)
Definition dict (V : Type) := list (string * V).

Fixpoint dict_get {V} (d : dict V) (k : string) : option V :=
  match d with
  | [] => None
  | (k', v) :: d' => if decide (k' = k) then Some v else dict_get d' k
  end.

(** [d[k] = v]: a key that is present keeps its place. *)
Fixpoint dict_set {V} (k : string) (v : V) (d : dict V) : dict V :=
  match d with
  | [] => [(k, v)]
  | (k', v') :: d' =>
      if decide (k' = k) then (k, v) :: d' else (k', v') :: dict_set k v d'
  end.

(** The value of [module_info[fqn]]: a dict with the keys ["path"],
    ["imports"] and, once classified, ["internal_imports"] and
    ["external_imports"]. [str(path)] is kept as the components of the path
    below the project root. *)
Record module_record := ModuleRecord {
  path : rel_path;
  imports : list string;
  internal_imports : option (list string);
  external_imports : option (list string)
}.

Record scanner := Scanner {
  module_info : dict module_record;
  local_packages : gset string;
  all_local_modules : gset string
}.

(** Line 126: [{"path": str(path), "imports": []}] *)
Definition new_record (p : rel_path) : module_record :=
  {| path := p; imports := []; internal_imports := None;
     external_imports := None |}.

(** [module_info[fqn]["imports"].append(target)] *)
Definition append_import (fqn target : string) (mi : dict module_record)
  : result (dict module_record) :=
  match dict_get mi fqn with
  | Some r =>
      Ok (dict_set fqn
            {| path := path r; imports := imports r ++ [target];
               internal_imports := internal_imports r;
               external_imports := external_imports r |} mi)
  | None => Raise KeyError
  end.

(** Lines 148-164. [source] is what [open] and [ast.parse] make of the
    file: [None] when either raises. *)
Definition _scan_file (source : option ast) (fqn : string)
  (mi : dict module_record) : result (dict module_record) :=
  match source with
  | None => Ok mi
  | Some tree =>
      for_each (ast_walk tree)
        (λ node mi, for_each (import_targets fqn node) (append_import fqn) mi)
        mi
  end.

(** The project tree. A file carries what parsing it gives. *)
Inductive fs_node :=
| File (name : string) (source : option ast)
| Dir (name : string) (children : list fs_node).

Definition node_name (n : fs_node) : string :=
  match n with
  | File name _ | Dir name _ => name
  end.

(** The non-directory entries of a directory, in listing order. *)
Fixpoint files_of (children : list fs_node) : list (string * option ast) :=
  match children with
  | [] => []
  | File name source :: rest => (name, source) :: files_of rest
  | Dir _ _ :: rest => files_of rest
  end.

(** [os.walk(top)], top down: yields [(root, dirs, files)] and then walks
    the directories left in [dirs]. The caller either leaves [dirs] alone or
    empties it; [prune] tells from [files] which. [root] is kept relative to
    [top]. *)
Fixpoint os_walk (prune : list string → bool) (root : rel_path) (n : fs_node)
  : list (rel_path * list (string * option ast)) :=
  match n with
  | File _ _ => []
  | Dir _ children =>
      (root, files_of children) ::
      if prune (files_of children).*1 then []
      else flat_map (λ c, os_walk prune (root ++ [node_name c]) c) children
  end.

(** Line 117: ['pyvenv.cfg' in files] *)
Definition is_venv (files : list string) : bool :=
  bool_decide ("pyvenv.cfg" ∈ files).

(** Lines 136-146. *)
Definition survey_dir (s : scanner)
  (entry : rel_path * list (string * option ast)) : scanner :=
  let '(root, files) := entry in
  let packages :=
    if bool_decide ("__init__.py" ∈ files.*1)
    then {[join_dot root]} ∪ local_packages s
    else local_packages s in
  let modules :=
    foldl (λ acc file,
             if endswith file ".py" then {[to_fqn (root ++ [file])]} ∪ acc
             else acc)
      (all_local_modules s) files.*1 in
  {| module_info := module_info s; local_packages := packages;
     all_local_modules := modules |}.

Definition _find_local_packages_and_modules (top : fs_node) (s : scanner)
  : scanner :=
  foldl survey_dir
    {| module_info := module_info s; local_packages := ∅;
       all_local_modules := ∅ |}
    (os_walk (λ _, false) [] top).

(** Lines 122-127. *)
Definition scan_entry (root : rel_path) (entry : string * option ast)
  (mi : dict module_record) : result (dict module_record) :=
  let '(file, source) := entry in
  if endswith file ".py" then
    let p := root ++ [file] in
    let fqn := to_fqn p in
    _scan_file source fqn (dict_set fqn (new_record p) mi)
  else Ok mi.

(** Lines 116-127. *)
Definition scan_dir (entry : rel_path * list (string * option ast))
  (mi : dict module_record) : result (dict module_record) :=
  let '(root, files) := entry in
  if is_venv files.*1 then Ok mi
  else for_each files (scan_entry root) mi.

(** Line 174. *)
Definition is_internal (s : scanner) (imported_name : string) : bool :=
  bool_decide (imported_name ∈ all_local_modules s)
  || bool_decide (hd EmptyString (split_dot imported_name) ∈ local_packages s).

(** Lines 171-179 for one record. *)
Definition categorize (s : scanner) (data : module_record) : module_record :=
  let '(internal, external) :=
    foldl (λ '(internal, external) imported_name,
             if is_internal s imported_name
             then (internal ++ [imported_name], external)
             else (internal, external ++ [imported_name]))
      ([], []) (imports data) in
  {| path := path data; imports := imports data;
     internal_imports := Some internal; external_imports := Some external |}.

(** Lines 166-179. *)
Definition _categorize_imports (s : scanner) : scanner :=
  {| module_info := prod_map id (categorize s) <$> module_info s;
     local_packages := local_packages s;
     all_local_modules := all_local_modules s |}.

(** Lines 103-130. [top] is what the project root is on disk: [None] when
    [project_root] is unset or does not exist, a [File] when it is not a
    directory. *)
Definition scan (top : option fs_node) (s : scanner) : result scanner :=
  let s := {| module_info := []; local_packages := local_packages s;
              all_local_modules := all_local_modules s |} in
  match top with
  | Some (Dir name children) =>
      let s := _find_local_packages_and_modules (Dir name children) s in
      mi ← for_each (os_walk is_venv [] (Dir name children)) scan_dir
             (module_info s);
      Ok (_categorize_imports
            {| module_info := mi; local_packages := local_packages s;
               all_local_modules := all_local_modules s |})
  | _ => Ok s
  end.

(** [set(l)], iterated: first occurrences, in order. *)
Definition set_of (l : list string) : list string := remove_dups l.

(** Lines 181-188. *)
Definition build_graph (s : scanner) : graph :=
  foldl (λ graph '(mod_, data),
           dict_set mod_ (set_of (default [] (internal_imports data))) graph)
    [] (module_info s).


(** Line 97-101: a scanner that has not scanned yet. *)
Definition new_scanner : scanner :=
  {| module_info := []; local_packages := ∅; all_local_modules := ∅ |}.

(** *** What the traversal establishes *)

(** The state between two iterations of the loop of lines 85-87. *)
Definition roots_inv (g : graph) (done : list string) (s : state) : Prop :=
  wf g s ∧ stack s = [] ∧ ∀ x, x ∈ done → x ∈ dom (indices s).

(** The list returned holds the components of two or more nodes, each
    once. *)
Definition cycles_of (g : graph) (r : list (list string)) : Prop :=
  (∀ c, c ∈ r → 2 ≤ length c ∧ is_scc g c) ∧
  (∀ x y, x ≠ y → mutually_reachable g x y → ∃ c, c ∈ r ∧ x ∈ c ∧ y ∈ c) ∧
  pairwise_disjoint r.


(** A chain of [n] modules, each importing the next: the successor of the
    last is no key. *)
Definition chain_node (i : nat) : string := "n" +:+ pretty i.

Definition chain (n : nat) : graph :=
  (λ i, (chain_node i, [chain_node (S i)])) <$> seq 0 n.

(** ** Notions of the specification *)

(** *** Name resolver *)

(** The list without its last [n] elements, or empty when it has fewer. *)
Definition drop_trailing {A : Type} (n : nat) (l : list A) : list A :=
  take (length l - n) l.

(** The package that encloses a module: its name without the last segment. *)
Definition enclosing_package (fqn : string) : list string :=
  drop_trailing 1 (split_dot fqn).

(** The module clause as a list of at most one element. An empty string is
    no clause: Python's truth test does not tell it from [None]. *)
Definition supplied (module : option string) : list string :=
  match module with
  | Some m => if decide (m = EmptyString) then [] else [m]
  | None => []
  end.

(** *** Syntax trees *)

(** A node that is an import statement. *)
Definition is_import (n : ast) : bool :=
  match n with
  | Node _ => false
  | _ => true
  end.

(** A node with no import statement in it. *)
Fixpoint import_free (n : ast) : bool :=
  match n with
  | Node children => forallb (λ c, import_free c) children
  | _ => false
  end.

(** Every import statement of the tree is a child of its root: none is
    nested in a compound statement. *)
Definition imports_at_top_level (tree : ast) : bool :=
  match tree with
  | Node body => forallb (λ stmt, is_import stmt || import_free stmt) body
  | _ => true
  end.

Definition total_size (todo : list ast) : nat := list_sum (map ast_size todo).

(** *** The files that a scan reads *)

(** The record with [targets] appended to its raw import list. *)
Definition with_imports (r : module_record) (targets : list string)
  : module_record :=
  {| path := path r; imports := imports r ++ targets;
     internal_imports := internal_imports r;
     external_imports := external_imports r |}.

(** The targets that [_scan_file] appends for a source. *)
Definition scanned_targets (fqn : string) (source : option ast) : list string :=
  match source with
  | None => []
  | Some tree => flat_map (import_targets fqn) (ast_walk tree)
  end.

(** The source files of one directory that the scan reads: none when the
    directory holds the marker of a virtual environment. *)
Definition scanned_in (entry : rel_path * list (string * option ast))
  : list (rel_path * option ast) :=
  let '(root, files) := entry in
  if is_venv files.*1 then []
  else omap (λ '(file, source),
               if endswith file ".py" then Some (root ++ [file], source)
               else None) files.

(** The source files that the scan reads below [root], in the order in
    which it reads them. *)
Definition scanned_from (root : rel_path) (n : fs_node)
  : list (rel_path * option ast) :=
  flat_map scanned_in (os_walk is_venv root n).

Definition scanned_files (top : fs_node) : list (rel_path * option ast) :=
  scanned_from [] top.

(** The record of a file when the walk has read it. *)
Definition scanned_record (p : rel_path) (source : option ast) : module_record :=
  {| path := p; imports := scanned_targets (to_fqn p) source;
     internal_imports := None; external_imports := None |}.

Definition store (mi : dict module_record) (f : rel_path * option ast)
  : dict module_record :=
  dict_set (to_fqn f.1) (scanned_record f.1 f.2) mi.

(** The state in which [scan] returns for a project root that is a
    directory. *)
Definition scan_result (top : fs_node) (s : scanner) : scanner :=
  let catalog :=
    _find_local_packages_and_modules top
      {| module_info := []; local_packages := local_packages s;
         all_local_modules := all_local_modules s |} in
  _categorize_imports
    {| module_info := foldl store [] (scanned_files top);
       local_packages := local_packages catalog;
       all_local_modules := all_local_modules catalog |}.

(** The entries of the directory called [name] among [children]. *)
Fixpoint find_dir (name : string) (children : list fs_node)
  : option (list fs_node) :=
  match children with
  | [] => None
  | Dir name' sub :: rest =>
      if decide (name' = name) then Some sub else find_dir name rest
  | File _ _ :: rest => find_dir name rest
  end.

(** The entries of the directory at path [d] below a directory with the
    entries [children]. *)
Fixpoint dir_at (children : list fs_node) (d : rel_path)
  : option (list fs_node) :=
  match d with
  | [] => Some children
  | name :: d' =>
      match find_dir name children with
      | Some sub => dir_at sub d'
      | None => None
      end
  end.

Definition children_of (n : fs_node) : list fs_node :=
  match n with
  | File _ _ => []
  | Dir _ children => children
  end.

(** No directory lists a name twice, as in a file system. *)
Fixpoint unique_names (n : fs_node) : bool :=
  match n with
  | File _ _ => true
  | Dir _ children =>
      bool_decide (NoDup (node_name <$> children))
      && forallb (λ c, unique_names c) children
  end.

(** ** Induction over the nested trees *)

Section ast_induction.
Variable P : ast → Prop.
Hypothesis HImport : ∀ names, P (Import names).
Hypothesis HImportFrom : ∀ module level, P (ImportFrom module level).
Hypothesis HNode : ∀ children, Forall P children → P (Node children).

Fixpoint ast_ind_nested (n : ast) : P n :=
  match n with
  | Import names => HImport names
  | ImportFrom module level => HImportFrom module level
  | Node children =>
      HNode children
        ((fix go (l : list ast) : Forall P l :=
            match l with
            | [] => Forall_nil_2 P
            | c :: l' => Forall_cons_2 P c l' (ast_ind_nested c) (go l')
            end) children)
  end.
End ast_induction.

Section fs_induction.
Variable P : fs_node → Prop.
Hypothesis HFile : ∀ name source, P (File name source).
Hypothesis HDir : ∀ name children, Forall P children → P (Dir name children).

Fixpoint fs_node_ind_nested (n : fs_node) : P n :=
  match n with
  | File name source => HFile name source
  | Dir name children =>
      HDir name children
        ((fix go (l : list fs_node) : Forall P l :=
            match l with
            | [] => Forall_nil_2 P
            | c :: l' => Forall_cons_2 P c l' (fs_node_ind_nested c) (go l')
            end) children)
  end.
End fs_induction.

(** ** Examples *)

(** A scanner with one record, a local package and a local module. *)
Definition classifier_example : scanner :=
  {| module_info :=
       [("main",
         {| path := ["main.py"]; imports := ["pkg.a"; "os"; "util"; "os"];
            internal_imports := None; external_imports := None |})];
     local_packages := {["pkg"]};
     all_local_modules := {["util"]} |}.

(** Its record, classified. *)
Definition classifier_example_record : module_record :=
  {| path := ["main.py"]; imports := ["pkg.a"; "os"; "util"; "os"];
     internal_imports := Some ["pkg.a"; "util"];
     external_imports := Some ["os"; "os"] |}.

(** [def f(): import a] followed by [import b]. *)
Definition nested_import : ast :=
  Node [Node [Import ["a"]]; Import ["b"]].

(** [import os, sys], a function without imports, [from .x import y] and
    [import os] again. *)
Definition flat_imports : ast :=
  Node [Import ["os"; "sys"]; Node [Node []]; ImportFrom (Some "x") 1;
        Import ["os"]].

(** A file that does not parse, in a virtual environment. *)
Definition tree_with_venv : fs_node :=
  Dir "proj"
    [File "ok.py" (Some (Node [Import ["os"]]));
     Dir "env" [File "pyvenv.cfg" None; File "broken.py" None]].

(** [a.b.py] and [a/b.py]: two paths with the FQN [a.b]. *)
Definition tree_with_clash : fs_node :=
  Dir "proj"
    [File "a.b.py" None;
     Dir "a" [File "b.py" (Some (Node [Import ["os"]]))]].

(** Every source file of the tree, read or not. *)
Definition source_files (top : fs_node) : list (rel_path * option ast) :=
  flat_map
    (λ '(root, files),
       omap (λ '(file, source),
               if endswith file ".py" then Some (root ++ [file], source)
               else None) files)
    (os_walk (λ _, false) [] top).

(** A file that does not parse next to one that does. *)
Definition tree_with_broken_file : fs_node :=
  Dir "proj"
    [File "bad.py" None;
     File "good.py" (Some (Node [Import ["os"]; ImportFrom (Some "bad") 1]))].

(** A virtual environment with source files in it and below it. *)
Definition tree_with_deep_venv : fs_node :=
  Dir "proj"
    [File "main.py" (Some (Node [Import ["os"]]));
     Dir "venv"
       [File "pyvenv.cfg" None;
        File "x.py" (Some (Node [Import ["q"]]));
        Dir "lib" [File "y.py" (Some (Node []))]]].

(** A project with the package [pkg]. *)
Definition project_with_package : fs_node :=
  Dir "proj" [Dir "pkg" [File "__init__.py" (Some (Node []))]].

(** A package in which [a.py] holds [from .b import f] and [import pkg.zzz],
    and [b.py] holds [from .a import g]; there is no [zzz.py]. *)
Definition project_with_dangling_import : fs_node :=
  Dir "proj"
    [Dir "pkg"
       [File "__init__.py" (Some (Node []));
        File "a.py"
          (Some (Node [ImportFrom (Some "b") 1; Import ["pkg.zzz"]]));
        File "b.py" (Some (Node [ImportFrom (Some "a") 1]))]].

(** ** Further notions *)

(** *** Cycle detector *)


(** The same mapping from node to successor set, whatever the order of the
    keys and of the members. *)
Definition same_edges (g1 g2 : graph) : Prop :=
  ∀ x y, edge g1 x y ↔ edge g2 x y.

(** *** Name resolver *)

(** A name without a dot. *)
(** [example_graph] with its keys in another order. *)
Definition example_graph_reordered : graph :=
  [("D", []); ("C", ["A"]); ("B", ["C"]); ("A", ["B"])].

Definition dot_free (s : string) : Prop := rfind_dot s = None.

(** *** Scanner *)

(** The source files of one directory, whatever the directory holds. *)
Definition source_files_in (entry : rel_path * list (string * option ast))
  : list (rel_path * option ast) :=
  let '(root, files) := entry in
  omap (λ '(file, source),
          if endswith file ".py" then Some (root ++ [file], source)
          else None) files.

(** The directories of the tree that hold an [__init__.py], as paths below
    the root; the root itself is the empty path. *)
Definition package_dirs (top : fs_node) : list rel_path :=
  omap (λ '(root, files),
          if bool_decide ("__init__.py" ∈ files.*1) then Some root else None)
    (os_walk (λ _, false) [] top).

(** The successor set that [build_graph] gives a record. *)
Definition internal_set (data : module_record) : list string :=
  set_of (default [] (internal_imports data)).

(** ** Graphviz export *)














(** A package whose [__init__.py] is empty, with two modules that import
    each other and the standard library. *)
Definition project_with_cycle : fs_node :=
  Dir "proj"
    [Dir "pkg"
       [File "__init__.py" (Some (Node []));
        File "a.py" (Some (Node [ImportFrom (Some "b") 1; Import ["os"]]));
        File "b.py" (Some (Node [ImportFrom (Some "a") 1]))]].

(** * Proofs *)

(** ** Cycle detector: proofs *)

Section for_each_lemmas.
Context {A S : Type}.
Implicit Types (l : list A) (body : A → S → result S).


Lemma for_each_invariant_from (I : list A → S → Prop) body l :
  ∀ pre s,
    I pre s →
    (∀ pre x s, x ∈ l → I pre s → ∃ s', body x s = Ok s' ∧ I (pre ++ [x]) s') →
    ∃ s', for_each l body s = Ok s' ∧ I (pre ++ l) s'.
Proof.
  induction l as [|x l IH]; intros pre s HI Hstep; simpl.
  - exists s. by rewrite app_nil_r.
  - destruct (Hstep pre x s) as (s1 & -> & HI1); [left|done|]. simpl.
    destruct (IH (pre ++ [x]) s1) as (s2 & -> & HI2); [done| |].
    + intros pre' y s' Hy. apply Hstep. by right.
    + exists s2. by rewrite <- app_assoc in HI2.
Qed.

Lemma for_each_invariant (I : list A → S → Prop) body l s :
  I [] s →
  (∀ pre x s, x ∈ l → I pre s → ∃ s', body x s = Ok s' ∧ I (pre ++ [x]) s') →
  ∃ s', for_each l body s = Ok s' ∧ I l s'.
Proof. intros. by apply (for_each_invariant_from I body l []). Qed.

End for_each_lemmas.

Lemma getitem_Some (m : gmap string nat) k n : m !! k = Some n → getitem m k = Ok n.
Proof. unfold getitem. by intros ->. Qed.

Lemma pop_component_spec v N S0 (ons : gset string) acc :
  NoDup (N ++ [v]) →
  (∀ x, x ∈ N ++ [v] → x ∈ ons) →
  pop_component v (N ++ v :: S0) ons acc
  = Ok (S0, ons ∖ list_to_set (N ++ [v]), acc ++ N ++ [v]).
Proof.
  revert ons acc. induction N as [|a N IH]; intros ons acc Hnd Hin; simpl.
  - rewrite decide_True by (apply Hin; set_solver).
    rewrite decide_True by done. do 2 f_equal. f_equal. set_solver.
  - simpl in Hnd. apply NoDup_cons in Hnd as [Ha Hnd].
    rewrite decide_True by (apply Hin; set_solver).
    rewrite decide_False by set_solver.
    rewrite IH; [|done|].
    + rewrite <- app_assoc. simpl. do 2 f_equal. f_equal. set_solver.
    + intros x Hx. apply elem_of_difference. split; [apply Hin; by right|].
      set_solver.
Qed.

(** *** Reachability *)

Section graph.
Context (g : graph).

Lemma edge_vertex x y : edge g x y → y ∈ vertices g.
Proof.
  unfold edge, vertices. intros H. apply elem_of_app. right.
  induction g as [|[k ws] g' IH]; simpl in *; [by apply elem_of_nil in H|].
  apply elem_of_app. destruct (decide (k = x)); auto.
Qed.

Lemma edge_key x y : edge g x y → x ∈ keys g.
Proof.
  unfold edge, keys. intros H.
  induction g as [|[k ws] g' IH]; simpl in *; [by apply elem_of_nil in H|].
  destruct (decide (k = x)) as [->|]; [left|right; auto].
Qed.

Lemma reach_refl x : reach g x x.
Proof. apply rtc_refl. Qed.

Lemma reach_edge x y : edge g x y → reach g x y.
Proof. apply rtc_once. Qed.

Lemma reach_trans x y z : reach g x y → reach g y z → reach g x z.
Proof. apply rtc_trans. Qed.

Lemma reach_first_edge x y : reach g x y → x ≠ y → ∃ z, edge g x z.
Proof. intros H Hne. destruct H as [|x z y Hxz _]; [done|eauto]. Qed.

(** *** Ranks, finished nodes and the stack order *)

Lemma rank_lookup s x i : indices s !! x = Some i → rank s x = i.
Proof. unfold rank. by intros ->. Qed.

Lemma low_lookup s x i : lowlink s !! x = Some i → low s x = i.
Proof. unfold low. by intros ->. Qed.

Lemma lookup_rank s x : x ∈ dom (indices s) → indices s !! x = Some (rank s x).
Proof. intros [i Hi]%elem_of_dom. by rewrite (rank_lookup _ _ _ Hi). Qed.

Lemma lookup_low s x : wf g s → x ∈ dom (indices s) →
  lowlink s !! x = Some (low s x).
Proof.
  intros Hwf Hx. rewrite <- (wf_low_dom _ _ Hwf) in Hx.
  apply elem_of_dom in Hx as [i Hi]. by rewrite (low_lookup _ _ _ Hi).
Qed.

Lemma rank_weaken s s' x :
  indices s ⊆ indices s' → x ∈ dom (indices s) → rank s' x = rank s x.
Proof.
  intros Hsub Hx. apply lookup_rank in Hx.
  by rewrite (rank_lookup s' x _ (lookup_weaken _ _ _ _ Hx Hsub)).
Qed.

Lemma dom_weaken (m m' : gmap string nat) x : m ⊆ m' → x ∈ dom m → x ∈ dom m'.
Proof. intros Hsub Hx. by apply (subseteq_dom _ _ Hsub). Qed.

Lemma StronglySorted_impl_elem {A} (R R' : relation A) l :
  StronglySorted R l →
  (∀ x y, x ∈ l → y ∈ l → R x y → R' x y) →
  StronglySorted R' l.
Proof.
  induction 1 as [|x l Hl IH Hx]; intros HR; constructor.
  - apply IH. intros. apply HR; by try right.
  - rewrite Forall_forall in *. intros y Hy. apply HR; [left|by right|auto].
Qed.

Lemma wf_stack_NoDup s : wf g s → NoDup (stack s).
Proof.
  intros Hwf. pose proof (wf_sorted _ _ Hwf) as Hs.
  induction Hs as [|x l Hl IH Hx]; constructor; [|done].
  intros Hin. rewrite Forall_forall in Hx. apply Hx in Hin. lia.
Qed.

Lemma wf_stack_above s l1 l2 a b :
  wf g s → stack s = l1 ++ l2 → a ∈ l1 → b ∈ l2 →
  rank s b < rank s a ∧ reach g b a.
Proof.
  intros Hwf Hstk Ha Hb. pose proof (wf_sorted _ _ Hwf) as Hs.
  rewrite Hstk in Hs.
  apply (StronglySorted_app_1_elem_of _ _ _ _ _ Hs Ha Hb).
Qed.

Lemma finished_reach s x y : wf g s → finished s x → reach g x y → finished s y.
Proof.
  intros Hwf Hx Hxy. induction Hxy as [|x z y Hxz _ IH]; [done|].
  apply IH. by eapply wf_closed.
Qed.

Lemma wf_set_lowlink s v n :
  wf g s → v ∈ dom (indices s) → wf g (set_lowlink v n s).
Proof.
  intros Hwf Hv. pose proof (wf_low_dom _ _ Hwf) as Hdom.
  destruct Hwf. split; try done. simpl. rewrite dom_insert_L, Hdom.
  set_solver.
Qed.

Lemma wf_init : wf g init.
Proof.
  split; simpl; try done.
  - set_solver.
  - set_solver.
  - constructor.
  - intros x y [Hx _]. set_solver.
  - intros c Hc. by apply elem_of_nil in Hc.
  - intros x y [Hx _]. set_solver.
Qed.

(** *** Entering a node *)

Lemma finished_enter v s x :
  v ∉ dom (indices s) → finished (enter v s) x ↔ finished s x.
Proof.
  intros Hv. unfold finished. simpl. rewrite dom_insert_L.
  rewrite elem_of_cons. set_solver.
Qed.

Lemma rank_enter_ne v s x : x ≠ v → rank (enter v s) x = rank s x.
Proof. intros Hne. unfold rank. simpl. by rewrite lookup_insert_ne. Qed.

Lemma rank_enter v s : rank (enter v s) v = index s.
Proof. unfold rank. simpl. by rewrite lookup_insert_eq. Qed.

Lemma wf_enter limit v s : dfs_pre g limit v s → wf g (enter v s).
Proof.
  intros [Hwf Hv _ Hreach _].
  assert (Hstk : ∀ y, y ∈ stack s → y ≠ v).
  { intros y Hy ->. by apply Hv, (wf_stack_dom _ _ Hwf). }
  split; simpl.
  - intros x. rewrite elem_of_union, elem_of_singleton, elem_of_cons.
    by rewrite (wf_onstack _ _ Hwf).
  - intros x. rewrite dom_insert_L, elem_of_cons, elem_of_union, elem_of_singleton.
    intros [->|Hx]; [by left|right; by apply (wf_stack_dom _ _ Hwf)].
  - rewrite !dom_insert_L. by rewrite (wf_low_dom _ _ Hwf).
  - intros x. rewrite dom_insert_L, elem_of_union, elem_of_singleton.
    destruct (decide (x = v)) as [->|Hne].
    + rewrite rank_enter. lia.
    + rewrite rank_enter_ne by done. intros [?|Hx]; [done|].
      apply (wf_index _ _ Hwf) in Hx. lia.
  - constructor.
    + eapply StronglySorted_impl_elem; [apply (wf_sorted _ _ Hwf)|].
      simpl. intros x y Hx Hy. rewrite !rank_enter_ne by auto. done.
    + apply Forall_forall. intros y Hy. rewrite rank_enter.
      rewrite rank_enter_ne by auto. split; [|by apply Hreach].
      by apply (wf_index _ _ Hwf), (wf_stack_dom _ _ Hwf).
  - intros x y Hx%finished_enter Hxy; [|done].
    apply finished_enter; [done|]. by eapply wf_closed.
  - intros c Hc. destruct (wf_sound _ _ Hwf c Hc) as (? & ? & Hfin).
    split_and!; [done..|]. intros x Hx. apply finished_enter; auto.
  - intros x y Hx%finished_enter; [|done]. by apply (wf_complete _ _ Hwf).
  - apply (wf_disjoint _ _ Hwf).
Qed.

Lemma enter_inv limit v s : dfs_pre g limit v s → loop_inv g v s [] (enter v s).
Proof.
  intros Hpre. pose proof Hpre as [Hwf Hv _ Hreach _].
  assert (Hlv : lowlink s !! v = None).
  { apply not_elem_of_dom. by rewrite (wf_low_dom _ _ Hwf). }
  split.
  - by eapply wf_enter.
  - simpl. apply insert_subseteq. by apply not_elem_of_dom.
  - simpl. by apply insert_subseteq.
  - simpl. apply lookup_insert_eq.
  - intros x Hx. by apply finished_enter.
  - exists []. simpl. split_and!; [done| | | |].
    + intros a Ha. by apply elem_of_nil in Ha.
    + exists v. split_and!; [left| |apply reach_refl].
      rewrite rank_enter. unfold low. simpl. by rewrite lookup_insert_eq.
    + intros a b Ha. by apply elem_of_nil in Ha.
    + intros b Hb. by apply elem_of_nil in Hb.
Qed.

(** *** One successor *)

Lemma limit_step (U D0 D : gset string) v n :
  size (U ∖ D0) ≤ S n → v ∈ U → v ∉ D0 → D0 ⊆ D → v ∈ D → size (U ∖ D) ≤ n.
Proof.
  intros Hsz HvU HvD0 Hsub HvD.
  assert (U ∖ D ⊂ U ∖ D0) as Hlt%subset_size; [|lia].
  split; [set_solver|]. intros Hcontra.
  assert (v ∈ U ∖ D) by (apply Hcontra; set_solver). set_solver.
Qed.

Section loop_facts.
Context (v : string) (s0 s : state) (N : list string).
Context (Hwf : wf g s) (Hstk : stack s = N ++ v :: stack s0).
Context (Hrank : indices s !! v = Some (index s0)).

Lemma loop_rank_above a : a ∈ N → index s0 < rank s a.
Proof.
  intros Ha. rewrite <- (rank_lookup _ _ _ Hrank).
  eapply (wf_stack_above s N (v :: stack s0)); [done..|left].
Qed.

Lemma loop_rank_below b : b ∈ stack s0 → rank s b < index s0.
Proof.
  intros Hb. rewrite <- (rank_lookup _ _ _ Hrank).
  eapply (wf_stack_above s (N ++ [v]) (stack s0)); [done| |set_solver|done].
  by rewrite <- app_assoc.
Qed.

Lemma loop_low_le y : y ∈ v :: stack s0 → rank s y ≤ index s0.
Proof.
  intros [->|Hy]%elem_of_cons.
  - by rewrite (rank_lookup _ _ _ Hrank).
  - apply loop_rank_below in Hy. lia.
Qed.

Lemma loop_not_above y : y ∈ stack s → rank s y ≤ index s0 → y ∈ v :: stack s0.
Proof.
  rewrite Hstk, elem_of_app. intros [Hy|Hy] Hle; [|done].
  apply loop_rank_above in Hy. lia.
Qed.
End loop_facts.

Lemma accounted_mono N N' v s0 s s' b :
  indices s ⊆ indices s' → wf g s →
  (∀ x, finished s x → finished s' x) →
  low s' v ≤ low s v →
  accounted N v s0 s b →
  (∀ x, x ∈ stack s0 → x ∈ stack s) →
  accounted (N' ++ N) v s0 s' b.
Proof.
  intros Hidx Hwf Hfin Hlow [Hb|[->|[Hb|[Hb Hle]]]] Hsub.
  - left. set_solver.
  - right; by left.
  - right; right; left. auto.
  - right; right; right. split; [done|].
    rewrite (rank_weaken s s') by eauto using wf_stack_dom. lia.
Qed.

Lemma low_set_lowlink v n s : low (set_lowlink v n s) v = n.
Proof. unfold low. simpl. by rewrite lookup_insert_eq. Qed.

Lemma rank_set_lowlink v n s x : rank (set_lowlink v n s) x = rank s x.
Proof. done. Qed.

Lemma visit_inv limit rec v s0 ws w s :
  dfs_pre g (S limit) v s0 →
  (∀ u s1, dfs_pre g limit u s1 →
     ∃ s2, rec u s1 = Ok s2 ∧ dfs_post g u s1 s2) →
  edge g v w →
  loop_inv g v s0 ws s →
  ∃ s', visit rec v w s = Ok s' ∧ loop_inv g v s0 (ws ++ [w]) s'.
Proof.
  intros Hpre Hrec Hvw
    [Hwf Hidx Hlow Hrank Hfin
       (N & Hstk & Hreach & (y & Hy & Hyrank & Hvy) & Hacc & Hws)].
  pose proof Hpre as [Hwf0 Hv0 Hvert0 Hreach0 Hlimit0].
  assert (Hvdom : v ∈ dom (indices s)) by (apply elem_of_dom; eauto).
  assert (Hlv := lookup_low s v Hwf Hvdom).
  assert (Hlow_le : low s v ≤ index s0).
  { rewrite <- Hyrank. by eapply loop_low_le. }
  assert (Hlv0 : lowlink s0 !! v = None).
  { apply not_elem_of_dom. by rewrite (wf_low_dom _ _ Hwf0). }
  assert (Hstk_reach : ∀ z, z ∈ stack s → reach g z v).
  { intros z. rewrite Hstk, elem_of_app, elem_of_cons.
    intros [Hz|[->|Hz]]; [by apply Hreach|apply reach_refl|by apply Hreach0]. }
  assert (Hsub0 : ∀ x, x ∈ stack s0 → x ∈ stack s).
  { intros x Hx. rewrite Hstk. set_solver. }
  unfold visit. destruct (decide (w ∉ dom (indices s))) as [Hw|Hw].
  - (* [w] is new: the recursive call *)
    destruct (Hrec w s) as (s' & -> & Hpost).
    { split; [done|done|by eapply edge_vertex| |].
      - intros z Hz. eapply reach_trans; [by apply Hstk_reach|].
        by apply reach_edge.
      - eapply limit_step; [exact Hlimit0| |exact Hv0| |exact Hvdom].
        + by apply elem_of_list_to_set.
        + by apply subseteq_dom. }
    destruct Hpost as
      [Hwf' Hidx' Hlow' Hrank' Hfin'
         (N' & Hstk' & Hreach' & Hcase & Hacc')].
    assert (Hvdom' : v ∈ dom (indices s')) by (by eapply dom_weaken).
    assert (Hwdom' : w ∈ dom (indices s')) by (apply elem_of_dom; eauto).
    assert (Hlv' : low s' v = low s v).
    { apply low_lookup. by eapply lookup_weaken. }
    assert (Hrw : rank s' w = index s) by (by apply rank_lookup).
    assert (Hold : ∀ x, x ∈ stack s → rank s' x = rank s x).
    { intros x Hx. apply rank_weaken; [done|by eapply wf_stack_dom]. }
    simpl.
    rewrite (getitem_Some _ _ _ (lookup_low s' v Hwf' Hvdom')). simpl.
    rewrite (getitem_Some _ _ _ (lookup_low s' w Hwf' Hwdom')). simpl.
    eexists; split; [done|]. rewrite Hlv'.
    split.
    + by apply wf_set_lowlink.
    + simpl. by etrans.
    + simpl. apply insert_subseteq_r; [done|by etrans].
    + simpl. by eapply lookup_weaken.
    + intros x Hx. apply Hfin', Hfin, Hx.
    + exists (N' ++ N). rewrite low_set_lowlink. split_and!.
      * simpl. by rewrite Hstk', Hstk, app_assoc.
      * intros a [Ha|Ha]%elem_of_app; [|by apply Hreach].
        destruct (Hreach' a Ha) as (Hwa & z & Hz & Haz). split.
        -- eapply reach_trans; [by apply reach_edge|done].
        -- eapply reach_trans; [done|by apply Hstk_reach].
      * destruct (decide (low s v ≤ low s' w)) as [Hle|Hlt].
        { exists y. rewrite Nat.min_l by done. split_and!; [done| |done].
          change (rank s' y = low s v). rewrite Hold; [done|].
          rewrite Hstk. set_solver. }
        rewrite Nat.min_r by lia.
        destruct Hcase as [[-> Hlw]|(HwN & z & Hz & Hzrank & Hwz)].
        { exfalso. assert (rank s v < index s) by (by apply (wf_index _ _ Hwf)).
          rewrite (rank_lookup _ _ _ Hrank) in *. lia. }
        exists z. split_and!; [|done|].
        -- eapply (loop_not_above v s0 s N); [done..|].
           rewrite <- Hold by done. lia.
        -- eapply reach_trans; [by apply reach_edge|done].
      * intros a b [Ha|Ha]%elem_of_app Hab.
        -- destruct (Hacc' a b Ha Hab) as [Hb|[Hb|[Hb Hle]]].
           ++ left. set_solver.
           ++ right; right; left. done.
           ++ revert Hb. rewrite Hstk, elem_of_app, elem_of_cons.
              intros [Hb|[->|Hb]]; [left; set_solver|right; by left|].
              right; right; right. split; [done|].
              rewrite low_set_lowlink, rank_set_lowlink. lia.
        -- eapply (accounted_mono N N' v s0 s); [done..| |by eapply Hacc|done].
           rewrite low_set_lowlink. lia.
      * intros b [Hb|Hb]%elem_of_app.
        -- eapply (accounted_mono N N' v s0 s); [done..| |by apply Hws|done].
           rewrite low_set_lowlink. lia.
        -- apply list_elem_of_singleton in Hb as ->.
           destruct Hcase as [[-> Hlw]|(HwN & _)].
           ++ right; right; left. split; [done|]. simpl. rewrite Hstk'.
              simpl. intros Hin. by apply Hw, (wf_stack_dom _ _ Hwf).
           ++ left. set_solver.
  - apply dec_stable in Hw.
    destruct (decide (w ∈ onstack s)) as [Hon|Hoff].
    + (* [w] is on the stack *)
      apply (wf_onstack _ _ Hwf) in Hon.
      rewrite (getitem_Some _ _ _ Hlv). simpl.
      rewrite (getitem_Some _ _ _ (lookup_rank s w Hw)). simpl.
      eexists; split; [done|].
      split.
      * by apply wf_set_lowlink.
      * done.
      * simpl. by apply insert_subseteq_r.
      * done.
      * done.
      * exists N. rewrite low_set_lowlink. split_and!; [done|done| | |].
        -- destruct (decide (low s v ≤ rank s w)) as [Hle|Hlt].
           { exists y. by rewrite Nat.min_l. }
           rewrite Nat.min_r by lia. exists w. split_and!; [|done|].
           ++ eapply (loop_not_above v s0 s N); [done..|lia].
           ++ by apply reach_edge.
        -- intros a b Ha Hab.
           eapply (accounted_mono N [] v s0 s); [done..| |by eapply Hacc|done].
           rewrite low_set_lowlink. lia.
        -- intros b [Hb|Hb]%elem_of_app.
           ++ eapply (accounted_mono N [] v s0 s); [done..| |by apply Hws|done].
              rewrite low_set_lowlink. lia.
           ++ apply list_elem_of_singleton in Hb as ->.
              revert Hon. rewrite Hstk, elem_of_app, elem_of_cons.
              intros [Hb|[->|Hb]]; [by left|right; by left|].
              right; right; right. split; [done|].
              rewrite low_set_lowlink, rank_set_lowlink. lia.
    + (* [w] is finished *)
      eexists; split; [done|].
      split; [done..|].
      exists N. split_and!; [done|done|by exists y|done|].
      intros b [Hb|Hb]%elem_of_app; [by apply Hws|].
      apply list_elem_of_singleton in Hb as ->.
      right; right; left. split; [done|]. by rewrite <- (wf_onstack _ _ Hwf).
Qed.

(** *** Closing a component *)

Lemma pairwise_disjoint_snoc r (C : list string) :
  pairwise_disjoint r →
  (∀ c x, c ∈ r → x ∈ c → x ∉ C) →
  pairwise_disjoint (r ++ [C]).
Proof.
  intros Hr HC i j c1 c2 Hi Hj Hij x Hx1 Hx2.
  apply lookup_app_Some in Hi as [Hi|[Hil Hi]];
    apply lookup_app_Some in Hj as [Hj|[Hjl Hj]].
  - by eapply (Hr i j c1 c2).
  - apply list_lookup_singleton_Some in Hj as [_ <-].
    eapply HC; [by eapply list_elem_of_lookup_2|done..].
  - apply list_lookup_singleton_Some in Hi as [_ <-].
    eapply HC; [by eapply list_elem_of_lookup_2|done..].
  - apply list_lookup_singleton_Some in Hi as [Hi _].
    apply list_lookup_singleton_Some in Hj as [Hj _]. lia.
Qed.

Lemma two_elems_length (l : list string) x y :
  x ≠ y → x ∈ l → y ∈ l → 2 ≤ length l.
Proof.
  intros Hne Hx Hy. destruct l as [|a [|b l]]; simpl; [|..|lia].
  - by apply elem_of_nil in Hx.
  - apply list_elem_of_singleton in Hx, Hy. congruence.
Qed.

Lemma close_post limit v s0 s :
  dfs_pre g limit v s0 →
  loop_inv g v s0 (graph_get g v) s →
  ∃ s', close v s = Ok s' ∧ dfs_post g v s0 s'.
Proof.
  intros Hpre
    [Hwf Hidx Hlow Hrank Hfin
       (N & Hstk & Hreach & (y & Hy & Hyrank & Hvy) & Hacc & Hws)].
  pose proof Hpre as [Hwf0 Hv0 Hvert0 Hreach0 Hlimit0].
  assert (Hvdom : v ∈ dom (indices s)) by (apply elem_of_dom; eauto).
  assert (Hrv := rank_lookup _ _ _ Hrank).
  assert (Hnd : NoDup (N ++ [v]) ∧ ∀ x, x ∈ N ++ [v] → x ∉ stack s0).
  { pose proof (wf_stack_NoDup s Hwf) as Hnd. rewrite Hstk in Hnd.
    rewrite cons_middle, app_assoc in Hnd.
    apply NoDup_app in Hnd as (? & ? & ?). done. }
  destruct Hnd as [Hnd Hnd0].
  assert (HC : ∀ a, a ∈ N ++ [v] → reach g v a ∧ reach g a v).
  { intros a [Ha|Ha%list_elem_of_singleton]%elem_of_app; [by apply Hreach|].
    subst. split; apply reach_refl. }
  assert (Hout : ∀ a b, a ∈ N ++ [v] → edge g a b → accounted N v s0 s b).
  { intros a b [Ha|Ha%list_elem_of_singleton]%elem_of_app Hab;
      [by eapply Hacc|]. subst. by apply Hws. }
  assert (HCstk : ∀ a, a ∈ N ++ [v] → a ∈ stack s).
  { intros a. rewrite Hstk. set_solver. }
  unfold close.
  rewrite (getitem_Some _ _ _ (lookup_low s v Hwf Hvdom)). simpl.
  rewrite (getitem_Some _ _ _ Hrank). simpl.
  destruct (decide (low s v = index s0)) as [Heq|Hne].
  - (* the low-link of [v] is its own index: pop its component *)
    rewrite Hstk, (pop_component_spec v N (stack s0) (onstack s) []); cycle 1.
    { done. }
    { intros x Hx. apply (wf_onstack _ _ Hwf). auto. }
    simpl. eexists; split; [done|].
    set (C := N ++ [v]) in *.
    assert (F2 : ∀ a b, a ∈ C → edge g a b → b ∈ C ∨ finished s b).
    { intros a b Ha Hab.
      destruct (Hout a b Ha Hab) as [Hb|[->|[Hb|[Hb Hle]]]].
      - left. subst C. set_solver.
      - left. subst C. set_solver.
      - by right.
      - apply (loop_rank_below v s0 s N Hwf Hstk Hrank) in Hb. lia. }
    assert (F3 : ∀ z, reach g v z → z ∈ C ∨ finished s z).
    { apply (rtc_ind_r (λ z, z ∈ C ∨ finished s z)).
      - left. subst C. set_solver.
      - intros z z' Hz Hzz' [IH|IH]; [by eapply F2|].
        right. by eapply wf_closed. }
    assert (F4 : ∀ x z, x ∈ C → mutually_reachable g x z → z ∈ C).
    { intros x z Hx [Hxz Hzx]. destruct (HC x Hx) as [Hvx Hxv].
      destruct (F3 z) as [Hz|Hz]; [by eapply reach_trans|done|].
      exfalso. assert (finished s v) as [_ Hv].
      { eapply finished_reach; [done..|]. by eapply reach_trans. }
      apply Hv. rewrite Hstk. set_solver. }
    assert (F5 : is_scc g C).
    { split_and!; [subst C; by destruct N|done|].
      intros x Hx z. split; [|by apply F4].
      intros Hz. destruct (HC x Hx), (HC z Hz).
      split; by eapply reach_trans. }
    set (s' := {| index := index s; stack := stack s0 |}).
    assert (F1 : ∀ x, finished s' x ↔ finished s x ∨ x ∈ C).
    { intros x. unfold finished. simpl. split.
      - intros [Hx Hx0]. destruct (decide (x ∈ C)) as [|HxC]; [by right|].
        left. split; [done|]. rewrite Hstk. subst C. set_solver.
      - intros [[Hx Hx0]|Hx].
        + split; [done|]. rewrite Hstk in Hx0. set_solver.
        + split; [by apply (wf_stack_dom _ _ Hwf), HCstk|by apply Hnd0]. }
    assert (Hsc : ∀ c, c ∈ sccs s' →
              c ∈ sccs s ∨ (c = C ∧ 2 ≤ length C)).
    { intros c. simpl. case_decide; [|by left].
      rewrite elem_of_app, list_elem_of_singleton. intros [?| ->]; [by left|].
      right. split; [done|lia]. }
    assert (Hsc_old : ∀ c, c ∈ sccs s → c ∈ sccs s').
    { intros c Hc. simpl. case_decide; [|done]. set_solver. }
    assert (Hsc_new : 2 ≤ length C → C ∈ sccs s').
    { intros Hlen. simpl. rewrite decide_True by lia. set_solver. }
    assert (Hsc_disj : pairwise_disjoint (sccs s')).
    { simpl. case_decide; [|apply (wf_disjoint _ _ Hwf)].
      apply pairwise_disjoint_snoc; [apply (wf_disjoint _ _ Hwf)|].
      intros c x Hc Hx HxC.
      destruct (wf_sound _ _ Hwf c Hc) as (_ & _ & Hcfin).
      destruct (Hcfin x Hx) as [_ Hxs]. apply Hxs. by apply HCstk. }
    assert (Hwf' : wf g s').
    { split.
      - intros x. simpl. rewrite elem_of_difference, elem_of_list_to_set.
        rewrite (wf_onstack _ _ Hwf), Hstk. split.
        + intros [Hx HxC]. subst C. set_solver.
        + intros Hx. split; [set_solver|]. intros HxC. by eapply Hnd0.
      - intros x Hx. simpl. apply (wf_stack_dom _ _ Hwf). rewrite Hstk.
        set_solver.
      - apply (wf_low_dom _ _ Hwf).
      - apply (wf_index _ _ Hwf).
      - pose proof (wf_sorted _ _ Hwf) as Hs. rewrite Hstk in Hs.
        apply StronglySorted_app_1_r in Hs.
        apply StronglySorted_cons in Hs as [_ Hs]. exact Hs.
      - intros x z [Hx|Hx]%F1 Hxz; apply F1.
        + left. by eapply wf_closed.
        + destruct (F2 x z Hx Hxz); auto.
      - intros c [Hc|[-> Hlen]]%Hsc.
        + destruct (wf_sound _ _ Hwf c Hc) as (? & ? & Hcfin).
          split_and!; [done..|]. intros x Hx. apply F1. left. auto.
        + split_and!; [done..|]. intros x Hx. apply F1. by right.
      - intros x z [Hx|Hx]%F1 Hne Hxz.
        + destruct (wf_complete _ _ Hwf x z Hx Hne Hxz) as (c & Hc & Hxc).
          exists c. auto.
        + exists C. split; [|done]. apply Hsc_new.
          eapply two_elems_length; [done..|]. by eapply F4.
      - done. }
    split; [done..| |].
    + intros x Hx. apply F1. left. auto.
    + exists []. split_and!; [done| |by left|].
      * intros a Ha. by apply elem_of_nil in Ha.
      * intros a b Ha. by apply elem_of_nil in Ha.
  - (* [v] stays on the stack with everything pushed above it *)
    eexists; split; [done|].
    assert (Hy0 : y ∈ stack s0).
    { apply elem_of_cons in Hy as [->|]; [|done]. congruence. }
    split; [done..|].
    exists (N ++ [v]). split_and!.
    + by rewrite Hstk, <- app_assoc.
    + intros a Ha. split; [by apply HC|]. exists y. split; [done|].
      eapply reach_trans; [by apply HC|done].
    + right. split; [set_solver|]. by exists y.
    + intros a b Ha Hab.
      destruct (Hout a b Ha Hab) as [Hb|[->|[Hb|[Hb Hle]]]]; set_solver.
Qed.

(** *** The traversal *)

Lemma dfs_spec limit : ∀ v s,
  dfs_pre g limit v s → ∃ s', dfs g limit v s = Ok s' ∧ dfs_post g v s s'.
Proof.
  induction limit as [|limit IH]; intros v s Hpre.
  - destruct Hpre as [_ Hv HvU _ Hsz]. exfalso.
    assert (Hempty : (list_to_set (vertices g) : gset string)
                       ∖ dom (indices s) ≡ ∅).
    { apply size_empty_inv. lia. }
    apply (not_elem_of_empty (C := gset string) v). rewrite <- Hempty.
    apply elem_of_difference. split; [by apply elem_of_list_to_set|done].
  - simpl.
    destruct (for_each_invariant (loop_inv g v s) (visit (dfs g limit) v)
                (graph_get g v) (enter v s)) as (s1 & -> & Hinv).
    + by eapply enter_inv.
    + intros pre w s' Hw Hinv. by eapply visit_inv.
    + simpl. by eapply close_post.
Qed.

Lemma size_list_to_set_le (l : list string) :
  size (list_to_set l : gset string) ≤ length l.
Proof.
  induction l as [|x l IH].
  - rewrite list_to_set_nil, size_empty. done.
  - rewrite list_to_set_cons, size_union_alt, size_singleton. simpl.
    assert (size ((list_to_set l : gset string) ∖ {[x]})
            ≤ size (list_to_set l : gset string)); [|lia].
    apply subseteq_size. set_solver.
Qed.

Lemma visit_root_inv limit done v s :
  length (vertices g) ≤ limit → v ∈ keys g →
  roots_inv g done s →
  ∃ s', visit_root g limit v s = Ok s' ∧ roots_inv g (done ++ [v]) s'.
Proof.
  intros Hlimit Hv (Hwf & Hstk & Hdone). unfold visit_root.
  destruct (decide (v ∉ dom (indices s))) as [Hnew|Hold].
  - destruct (dfs_spec limit v s) as (s' & -> & Hpost).
    { split; [done..| | |].
      - unfold vertices. set_solver.
      - rewrite Hstk. intros y Hy. by apply elem_of_nil in Hy.
      - etrans; [|exact Hlimit]. etrans; [|apply size_list_to_set_le].
        apply subseteq_size. set_solver. }
    exists s'. split; [done|].
    destruct Hpost as [Hwf' Hidx' _ Hrank' _ (N & Hstk' & Hreach' & _)].
    split_and!; [done| |].
    + destruct N as [|a N]; [by rewrite Hstk' |].
      destruct (Hreach' a) as (_ & y & Hy & _); [left|].
      rewrite Hstk in Hy. by apply elem_of_nil in Hy.
    + intros x [Hx|Hx]%elem_of_app.
      * eapply dom_weaken; eauto.
      * apply list_elem_of_singleton in Hx as ->. apply elem_of_dom; eauto.
  - apply dec_stable in Hold. exists s. split; [done|].
    split_and!; [done..|].
    intros x [Hx|Hx]%elem_of_app; [auto|].
    by apply list_elem_of_singleton in Hx as ->.
Qed.

Lemma roots_spec limit :
  length (vertices g) ≤ limit →
  ∃ s, for_each (keys g) (visit_root g limit) init = Ok s
       ∧ roots_inv g (keys g) s.
Proof.
  intros Hlimit. apply for_each_invariant.
  - split_and!; [apply wf_init|done|]. intros x Hx. by apply elem_of_nil in Hx.
  - intros done v s Hv Hinv. by apply visit_root_inv.
Qed.

Lemma scc_spec limit :
  length (vertices g) ≤ limit →
  ∃ r, strongly_connected_components limit g = Ok r ∧ cycles_of g r.
Proof.
  intros Hlimit. unfold strongly_connected_components.
  destruct (roots_spec limit Hlimit) as (s & -> & Hwf & Hstk & Hkeys).
  simpl. exists (sccs s). split; [done|]. split_and!.
  - intros c Hc. destruct (wf_sound _ _ Hwf c Hc) as (? & ? & _). done.
  - intros x y Hne Hxy.
    assert (Hfin : finished s x).
    { split; [|rewrite Hstk; apply not_elem_of_nil].
      destruct Hxy as [Hxy _].
      destruct (reach_first_edge x y Hxy Hne) as [z Hz].
      by eapply Hkeys, edge_key. }
    destruct (wf_complete _ _ Hwf x y Hfin Hne Hxy) as (c & Hc & Hxc).
    exists c. split_and!; [done..|].
    destruct (wf_sound _ _ Hwf c Hc) as (_ & (_ & _ & Hscc) & _).
    by apply (Hscc x).
  - apply (wf_disjoint _ _ Hwf).
Qed.

End graph.

(** *** The recursion limit, and nodes that are not keys *)


Lemma Ok_bind {A B} (a : A) (f : A → result B) : Ok a ≫= f = f a.
Proof. done. Qed.


Lemma graph_get_not_key g w : w ∉ keys g → graph_get g w = [].
Proof.
  induction g as [|[k ws] g IH]; simpl; [done|].
  rewrite not_elem_of_cons. intros [Hne Hw]. by rewrite decide_False; auto.
Qed.




(** A call that runs into the limit raises [RecursionError]; any other
    does what it does with more room. *)
Lemma for_each_or_raise {A S} (e : exn) (l : list A)
    (body1 body2 : A → S → result S) : ∀ s,
  (∀ x s, body1 x s = Raise e ∨ body1 x s = body2 x s) →
  for_each l body1 s = Raise e ∨ for_each l body1 s = for_each l body2 s.
Proof.
  induction l as [|x l IH]; intros s Hbody; simpl; [by right|].
  destruct (Hbody x s) as [-> | ->]; [by left|].
  destruct (body2 x s) as [s1|e1]; simpl; [by apply IH|by right].
Qed.

Lemma visit_or_raise (rec1 rec2 : string → state → result state) v w s :
  (∀ u s, rec1 u s = Raise RecursionError ∨ rec1 u s = rec2 u s) →
  visit rec1 v w s = Raise RecursionError ∨ visit rec1 v w s = visit rec2 v w s.
Proof.
  intros Hrec. unfold visit. case_decide; [|by right].
  destruct (Hrec w s) as [-> | ->]; [by left|by right].
Qed.

Lemma dfs_limit_cases g limit : ∀ limit' v s,
  limit ≤ limit' →
  dfs g limit v s = Raise RecursionError ∨ dfs g limit v s = dfs g limit' v s.
Proof.
  induction limit as [|limit IH]; intros limit' v s Hle; [by left|].
  destruct limit' as [|limit']; [lia|]. simpl.
  destruct (for_each_or_raise RecursionError (graph_get g v)
              (visit (dfs g limit) v) (visit (dfs g limit') v) (enter v s))
    as [-> | ->]; [|by left|by right].
  intros w t. apply visit_or_raise. intros u t'. apply IH. lia.
Qed.

Lemma scc_limit_cases g limit limit' :
  limit ≤ limit' →
  strongly_connected_components limit g = Raise RecursionError ∨
  strongly_connected_components limit g = strongly_connected_components limit' g.
Proof.
  intros Hle. unfold strongly_connected_components.
  destruct (for_each_or_raise RecursionError (keys g)
              (visit_root g limit) (visit_root g limit') init)
    as [-> | ->]; [|by left|by right].
  intros v t. unfold visit_root. case_decide; [|by right].
  by apply dfs_limit_cases.
Qed.

(** What a call does: it returns the cycles, or the traversal is deeper
    than the interpreter allows. No other exception is raised. *)
Lemma scc_outcome g limit :
  (∃ r, strongly_connected_components limit g = Ok r ∧ cycles_of g r) ∨
  (strongly_connected_components limit g = Raise RecursionError ∧
   limit < length (vertices g)).
Proof.
  destruct (le_lt_dec (length (vertices g)) limit) as [Hle|Hlt].
  - left. by apply scc_spec.
  - destruct (scc_limit_cases g limit (length (vertices g))) as [Hraise|Heq];
      [lia|by right|].
    left. rewrite Heq. by apply scc_spec.
Qed.

Lemma scc_returns g limit r :
  strongly_connected_components limit g = Ok r → cycles_of g r.
Proof.
  intros Hr. destruct (scc_outcome g limit) as [(r' & Hr' & Hc)|[Hraise _]].
  - rewrite Hr in Hr'. by injection Hr' as ->.
  - by rewrite Hr in Hraise.
Qed.



(** *** A chain deeper than the limit *)

Lemma chain_node_inj : Inj (=) (=) chain_node.
Proof.
  intros i j Heq. unfold chain_node in Heq.
  apply (inj (String.app "n")) in Heq. by apply (inj pretty) in Heq.
Qed.

Lemma graph_get_chain_from n : ∀ k i,
  k ≤ i < k + n →
  graph_get ((λ i, (chain_node i, [chain_node (S i)])) <$> seq k n)
    (chain_node i)
  = [chain_node (S i)].
Proof.
  induction n as [|n IH]; intros k i Hi; [lia|]. simpl.
  destruct (decide (chain_node k = chain_node i)) as [Heq|Hne].
  - by apply chain_node_inj in Heq as ->.
  - apply IH. destruct (decide (k = i)) as [->|]; [done|lia].
Qed.

Lemma graph_get_chain n i :
  i < n → graph_get (chain n) (chain_node i) = [chain_node (S i)].
Proof. intros Hi. apply graph_get_chain_from. lia. Qed.

Lemma dfs_chain_raises n limit : ∀ i s,
  i + limit ≤ n →
  (∀ j, i ≤ j → chain_node j ∉ dom (indices s)) →
  dfs (chain n) limit (chain_node i) s = Raise RecursionError.
Proof.
  induction limit as [|limit IH]; intros i s Hi Hnew; [done|]. simpl.
  rewrite graph_get_chain by lia. simpl.
  unfold visit at 1. rewrite decide_True; cycle 1.
  { simpl. rewrite dom_insert, not_elem_of_union, not_elem_of_singleton.
    split; [|apply Hnew; lia]. intros Heq%chain_node_inj. lia. }
  rewrite IH; [done|lia|].
  intros j Hj. simpl. rewrite dom_insert, not_elem_of_union, not_elem_of_singleton.
  split; [|apply Hnew; lia]. intros Heq%chain_node_inj. lia.
Qed.

(** A chain with more modules than the interpreter allows nested calls
    makes the traversal raise. *)
Lemma chain_raises limit n :
  limit < n →
  strongly_connected_components limit (chain n) = Raise RecursionError.
Proof.
  intros Hn. unfold strongly_connected_components.
  destruct n as [|n]; [lia|].
  change (keys (chain (S n))) with (chain_node 0 :: keys (
    (λ i, (chain_node i, [chain_node (S i)])) <$> seq 1 n)).
  cbn [for_each].
  assert (Hroot : visit_root (chain (S n)) limit (chain_node 0) init
                  = Raise RecursionError); [|by rewrite Hroot].
  unfold visit_root. rewrite decide_True by (simpl; set_solver).
  apply dfs_chain_raises; [lia|]. intros j _. simpl. set_solver.
Qed.


(** ** Name resolver: proofs *)

Lemma slice_to_negative {A} (l : list A) (n : nat) :
  0 < n → slice_to l (- Z.of_nat n) = drop_trailing n l.
Proof.
  intros Hn. unfold slice_to, drop_trailing.
  destruct (Z.ltb_spec (- Z.of_nat n) 0); [|lia]. f_equal. lia.
Qed.

(** *** Segments *)

Lemma split_dot_not_nil s : split_dot s ≠ [].
Proof.
  destruct s as [|c s]; simpl; [done|].
  destruct (Ascii.eqb c "."); [done|]. by destruct (split_dot s).
Qed.

Lemma join_dot_cons x l :
  l ≠ [] → join_dot (x :: l) = x +:+ "." +:+ join_dot l.
Proof. by destruct l. Qed.

(** Joining the segments gives the string back. *)
Lemma join_split_dot s : join_dot (split_dot s) = s.
Proof.
  induction s as [|c s IH]; simpl; [done|].
  destruct (Ascii.eqb_spec c ".") as [->|Hc].
  - rewrite join_dot_cons by apply split_dot_not_nil. simpl. by rewrite IH.
  - pose proof (split_dot_not_nil s) as Hne.
    destruct (split_dot s) as [|seg segs]; [done|].
    destruct segs as [|seg' segs].
    + simpl in *. by rewrite IH.
    + rewrite join_dot_cons by done. rewrite join_dot_cons in IH by done.
      change (String c (seg +:+ "." +:+ join_dot (seg' :: segs)) = String c s).
      by rewrite IH.
Qed.

(** No segment holds a dot. *)
Lemma split_dot_no_dot s seg :
  seg ∈ split_dot s → rfind_dot seg = None.
Proof.
  revert seg. induction s as [|c s IH]; simpl; intros seg.
  - by intros ->%list_elem_of_singleton.
  - destruct (Ascii.eqb_spec c ".") as [->|Hc].
    + intros [->|Hseg]%elem_of_cons; [done|auto].
    + pose proof (split_dot_not_nil s) as Hne.
      destruct (split_dot s) as [|seg0 segs]; [done|].
      intros [->|Hseg]%elem_of_cons.
      * simpl. rewrite (IH seg0) by left.
        by destruct (Ascii.eqb_spec c ".").
      * apply IH. by right.
Qed.

(** The first segment of a string: the string up to its first dot, or all
    of it when it has none. *)
Lemma first_segment_spec t :
  ∃ rest, t = join_dot (hd EmptyString (split_dot t) :: rest) ∧
    rfind_dot (hd EmptyString (split_dot t)) = None.
Proof.
  pose proof (split_dot_not_nil t) as Hne.
  pose proof (join_split_dot t) as Hjoin.
  pose proof (split_dot_no_dot t) as Hdot.
  destruct (split_dot t) as [|seg rest]; [done|]. simpl.
  exists rest. split; [done|]. apply Hdot. left.
Qed.

(** ** Dictionaries *)

Section dict_lemmas.
Context {V : Type}.
Implicit Types (d : dict V) (k : string) (v : V).

Lemma dict_get_set_eq d k v : dict_get (dict_set k v d) k = Some v.
Proof.
  induction d as [|[k' v'] d IH]; simpl.
  - by rewrite decide_True.
  - destruct (decide (k' = k)) as [->|Hne]; simpl.
    + by rewrite decide_True.
    + by rewrite decide_False.
Qed.

Lemma dict_get_set_ne d k k' v :
  k ≠ k' → dict_get (dict_set k v d) k' = dict_get d k'.
Proof.
  intros Hne. induction d as [|[k0 v0] d IH]; simpl.
  - by rewrite decide_False.
  - destruct (decide (k0 = k)) as [->|Hne0]; simpl.
    + by rewrite !decide_False.
    + by rewrite IH.
Qed.

Lemma dict_set_set d k v v' : dict_set k v' (dict_set k v d) = dict_set k v' d.
Proof.
  induction d as [|[k0 v0] d IH]; simpl.
  - by rewrite decide_True.
  - destruct (decide (k0 = k)) as [->|Hne]; simpl.
    + by rewrite decide_True.
    + rewrite decide_False by done. by rewrite IH.
Qed.

Lemma dict_set_id d k v : dict_get d k = Some v → dict_set k v d = d.
Proof.
  induction d as [|[k0 v0] d IH]; simpl; [done|].
  destruct (decide (k0 = k)) as [->|Hne].
  - by intros [= ->].
  - intros Hget. by rewrite IH.
Qed.

Lemma elem_of_dict_set d k v k' v' :
  (k', v') ∈ dict_set k v d → (k', v') = (k, v) ∨ (k', v') ∈ d.
Proof.
  induction d as [|[k0 v0] d IH]; simpl.
  - intros ->%list_elem_of_singleton. by left.
  - destruct (decide (k0 = k)) as [->|Hne].
    + intros [->|Hin]%elem_of_cons; [by left|right; by right].
    + intros [->|Hin]%elem_of_cons; [right; left|].
      destruct (IH Hin); [by left|right; by right].
Qed.

Lemma dict_get_fmap {W} (f : V → W) d k :
  dict_get (prod_map id f <$> d) k = f <$> dict_get d k.
Proof.
  induction d as [|[k0 v0] d IH]; simpl; [done|].
  destruct (decide (k0 = k)); [done|]. apply IH.
Qed.

End dict_lemmas.

(** ** Import classifier: proofs *)

Lemma categorize_filter s data :
  categorize s data
  = {| path := path data; imports := imports data;
       internal_imports := Some (filter (λ t, is_internal s t) (imports data));
       external_imports :=
         Some (filter (λ t, ¬ is_internal s t) (imports data)) |}.
Proof.
  unfold categorize.
  assert (Hfold : ∀ l internal external,
    foldl (λ '(internal, external) imported_name,
             if is_internal s imported_name
             then (internal ++ [imported_name], external)
             else (internal, external ++ [imported_name]))
      (internal, external) l
    = (internal ++ filter (λ t, is_internal s t) l,
       external ++ filter (λ t, ¬ is_internal s t) l)).
  { induction l as [|t l IH]; intros internal external; simpl.
    - by rewrite !app_nil_r.
    - destruct (is_internal s t) eqn:Ht; rewrite IH.
      + rewrite filter_cons_True by (by apply Is_true_true).
        rewrite filter_cons_False by (rewrite Ht; auto).
        by rewrite <- app_assoc.
      + rewrite filter_cons_False by (by apply Is_true_false).
        rewrite filter_cons_True by (by apply Is_true_false).
        by rewrite <- app_assoc. }
  by rewrite Hfold.
Qed.

Lemma elem_of_categorize_imports s fqn data :
  (fqn, data) ∈ module_info (_categorize_imports s) ↔
  ∃ data0, (fqn, data0) ∈ module_info s ∧ data = categorize s data0.
Proof.
  simpl. rewrite list_elem_of_fmap. split.
  - intros ([k d0] & [= -> ->] & Hin). eauto.
  - intros (d0 & Hin & ->). by exists (fqn, d0).
Qed.

Lemma is_internal_rule s t :
  is_internal s t ↔
  t ∈ all_local_modules s ∨ hd EmptyString (split_dot t) ∈ local_packages s.
Proof.
  unfold is_internal. rewrite orb_True, !bool_decide_spec. done.
Qed.

(** ** Source walker: the syntax tree *)

Lemma total_size_app q1 q2 : total_size (q1 ++ q2) = total_size q1 + total_size q2.
Proof. unfold total_size. by rewrite map_app, list_sum_app. Qed.

Lemma ast_size_children n : ast_size n = S (total_size (iter_child_nodes n)).
Proof. by destruct n. Qed.

Lemma source_order_children n :
  source_order n = n :: flat_map source_order (iter_child_nodes n).
Proof. by destruct n. Qed.

(** [ast.walk] yields every node of the tree once. *)
Lemma walk_todo_permutation rounds : ∀ todo,
  total_size todo ≤ rounds →
  walk_todo rounds todo ≡ₚ flat_map source_order todo.
Proof.
  induction rounds as [|rounds IH]; intros [|n todo] Hsz; simpl; try done.
  - unfold total_size in Hsz. simpl in Hsz.
    rewrite ast_size_children in Hsz. lia.
  - rewrite IH; cycle 1.
    { rewrite total_size_app. unfold total_size in *. simpl in Hsz.
      rewrite ast_size_children in Hsz. unfold total_size in Hsz. lia. }
    rewrite flat_map_app, (source_order_children n). simpl.
    f_equiv. apply Permutation_app_comm.
  Qed.

Lemma ast_walk_permutation tree : ast_walk tree ≡ₚ source_order tree.
Proof.
  unfold ast_walk. rewrite walk_todo_permutation.
  - simpl. by rewrite app_nil_r.
  - unfold total_size. simpl. lia.
Qed.

Lemma import_free_children n :
  import_free n → Forall (λ c, import_free c) (iter_child_nodes n).
Proof.
  destruct n as [| |children]; simpl; [done..|].
  intros H. apply Forall_forall. intros c Hc%list_elem_of_In.
  apply Is_true_true in H. rewrite forallb_forall in H.
  apply Is_true_true. auto.
Qed.

Lemma import_free_targets fqn n : import_free n → import_targets fqn n = [].
Proof. by destruct n. Qed.

Lemma walk_todo_import_free fqn rounds : ∀ todo,
  Forall (λ c, import_free c) todo →
  flat_map (import_targets fqn) (walk_todo rounds todo) = [].
Proof.
  induction rounds as [|rounds IH]; intros [|n todo] Hfree; simpl; try done.
  apply Forall_cons in Hfree as [Hn Htodo].
  rewrite (import_free_targets fqn n Hn). simpl. apply IH.
  apply Forall_app. split; [done|]. by apply import_free_children.
Qed.

Lemma source_order_import_free fqn n :
  import_free n → flat_map (import_targets fqn) (source_order n) = [].
Proof.
  induction n as [| |children IH] using ast_ind_nested; simpl; [done..|].
  intros Hfree. apply Is_true_true in Hfree. rewrite forallb_forall in Hfree.
  induction IH as [|c children Hc _ IHch]; simpl; [done|].
  rewrite flat_map_app, Hc, IHch; [done| |].
  - intros x Hx. apply Hfree. by right.
  - apply Is_true_true, Hfree. by left.
Qed.

Lemma walk_todo_top_level fqn stmts : ∀ rounds rest,
  total_size (stmts ++ rest) ≤ rounds →
  Forall (λ stmt, is_import stmt || import_free stmt) stmts →
  Forall (λ c, import_free c) rest →
  flat_map (import_targets fqn) (walk_todo rounds (stmts ++ rest))
  = flat_map (import_targets fqn) (flat_map source_order stmts).
Proof.
  induction stmts as [|stmt stmts IH]; intros rounds rest Hsz Hstmts Hrest.
  - simpl. by apply walk_todo_import_free.
  - apply Forall_cons in Hstmts as [Hstmt Hstmts].
    destruct rounds as [|rounds].
    { unfold total_size in Hsz. simpl in Hsz.
      rewrite ast_size_children in Hsz. lia. }
    simpl. rewrite <- app_assoc, IH; [| |done|].
    + rewrite !flat_map_app. f_equal.
      apply orb_True in Hstmt as [Himp|Hfree].
      * destruct stmt; simpl; [by rewrite ?app_nil_r.. |done].
      * by rewrite import_free_targets, source_order_import_free.
    + rewrite !total_size_app. rewrite total_size_app in Hsz.
      unfold total_size in *. simpl in Hsz.
      rewrite ast_size_children in Hsz. unfold total_size in Hsz. lia.
    + apply Forall_app. split; [done|].
      apply orb_True in Hstmt as [Himp|Hfree].
      * by destruct stmt.
      * by apply import_free_children.
Qed.

Lemma ast_walk_top_level fqn tree :
  imports_at_top_level tree →
  flat_map (import_targets fqn) (ast_walk tree)
  = flat_map (import_targets fqn) (source_order tree).
Proof.
  destruct tree as [names|module level|body]; [done..|].
  intros Htop. unfold ast_walk. simpl.
  rewrite <- (app_nil_r body) at 2. apply walk_todo_top_level.
  - by rewrite app_nil_r.
  - apply Forall_forall. intros stmt Hstmt%list_elem_of_In.
    apply Is_true_true in Htop. simpl in Htop.
    rewrite forallb_forall in Htop. apply Is_true_true. auto.
  - constructor.
Qed.

(** *** What [_scan_file] stores *)

Lemma with_imports_nil r : with_imports r [] = r.
Proof. destruct r. unfold with_imports. simpl. by rewrite app_nil_r. Qed.

Lemma with_imports_app r ts1 ts2 :
  with_imports (with_imports r ts1) ts2 = with_imports r (ts1 ++ ts2).
Proof. unfold with_imports. simpl. by rewrite app_assoc. Qed.

Lemma append_import_Some fqn t mi r :
  dict_get mi fqn = Some r →
  append_import fqn t mi = Ok (dict_set fqn (with_imports r [t]) mi).
Proof. unfold append_import. by intros ->. Qed.

Lemma append_imports fqn targets : ∀ mi r,
  dict_get mi fqn = Some r →
  for_each targets (append_import fqn) mi
  = Ok (dict_set fqn (with_imports r targets) mi).
Proof.
  induction targets as [|t targets IH]; intros mi r Hget; simpl.
  - by rewrite with_imports_nil, dict_set_id.
  - rewrite (append_import_Some _ _ _ _ Hget), Ok_bind.
    rewrite (IH _ (with_imports r [t])) by apply dict_get_set_eq.
    by rewrite dict_set_set, with_imports_app.
Qed.

Lemma scan_nodes fqn nodes : ∀ mi r,
  dict_get mi fqn = Some r →
  for_each nodes
    (λ node mi, for_each (import_targets fqn node) (append_import fqn) mi) mi
  = Ok (dict_set fqn (with_imports r (flat_map (import_targets fqn) nodes)) mi).
Proof.
  induction nodes as [|n nodes IH]; intros mi r Hget; simpl.
  - by rewrite with_imports_nil, dict_set_id.
  - rewrite (append_imports _ _ _ _ Hget), Ok_bind.
    rewrite (IH _ (with_imports r (import_targets fqn n)))
      by apply dict_get_set_eq.
    by rewrite dict_set_set, with_imports_app.
Qed.

Lemma scan_file_spec source fqn mi r :
  dict_get mi fqn = Some r →
  _scan_file source fqn mi
  = Ok (dict_set fqn (with_imports r (scanned_targets fqn source)) mi).
Proof.
  intros Hget. destruct source as [tree|]; simpl.
  - by apply scan_nodes.
  - by rewrite with_imports_nil, dict_set_id.
Qed.

(** ** Source walker: the project tree *)

Lemma scan_entry_spec root file source mi :
  scan_entry root (file, source) mi
  = Ok (if endswith file ".py" then store mi (root ++ [file], source) else mi).
Proof.
  unfold scan_entry. destruct (endswith file ".py"); [|done].
  rewrite (scan_file_spec _ _ _ (new_record (root ++ [file])))
    by apply dict_get_set_eq.
  by rewrite dict_set_set.
Qed.

Lemma scan_entries_spec root files : ∀ mi,
  for_each files (scan_entry root) mi
  = Ok (foldl store mi
          (omap (λ '(file, source),
                   if endswith file ".py" then Some (root ++ [file], source)
                   else None) files)).
Proof.
  induction files as [|[file source] files IH]; intros mi; [done|].
  cbn [for_each]. rewrite scan_entry_spec, Ok_bind, IH.
  destruct (endswith file ".py") eqn:Hpy; simpl; by rewrite Hpy.
Qed.

Lemma scan_dir_spec entry mi :
  scan_dir entry mi = Ok (foldl store mi (scanned_in entry)).
Proof.
  destruct entry as [root files]. unfold scan_dir, scanned_in.
  destruct (is_venv files.*1); [done|]. apply scan_entries_spec.
Qed.

Lemma scan_walk_spec entries : ∀ mi,
  for_each entries scan_dir mi
  = Ok (foldl store mi (flat_map scanned_in entries)).
Proof.
  induction entries as [|entry entries IH]; intros mi; [done|].
  cbn [for_each flat_map]. by rewrite scan_dir_spec, Ok_bind, IH, foldl_app.
Qed.

Lemma survey_dir_module_info s entry :
  module_info (survey_dir s entry) = module_info s.
Proof. by destruct entry. Qed.

Lemma find_local_module_info top s :
  module_info (_find_local_packages_and_modules top s) = module_info s.
Proof.
  unfold _find_local_packages_and_modules.
  generalize (os_walk (λ _, false) [] top). intros entries.
  set (s0 := {| module_info := module_info s; local_packages := ∅;
                all_local_modules := ∅ |}).
  change (module_info s) with (module_info s0). generalize s0. clear.
  induction entries as [|e entries IH]; intros s0; simpl; [done|].
  by rewrite IH, survey_dir_module_info.
Qed.

Lemma scan_directory name children s :
  scan (Some (Dir name children)) s
  = Ok (scan_result (Dir name children) s).
Proof.
  unfold scan. rewrite find_local_module_info. cbn [module_info].
  by rewrite scan_walk_spec.
Qed.

Lemma scan_invalid_root top s :
  (∀ name children, top ≠ Some (Dir name children)) →
  scan top s
  = Ok {| module_info := []; local_packages := local_packages s;
          all_local_modules := all_local_modules s |}.
Proof. intros Hinv. unfold scan. destruct top as [[| name children]|]; naive_solver. Qed.

(** *** Records of the files read *)

Lemma dict_get_foldl_store_other fs k : ∀ mi,
  (∀ q source, (q, source) ∈ fs → to_fqn q ≠ k) →
  dict_get (foldl store mi fs) k = dict_get mi k.
Proof.
  induction fs as [|[q source] fs IH]; intros mi Hfs; simpl; [done|].
  rewrite IH.
  - unfold store. simpl. apply dict_get_set_ne. apply (Hfs q source). left.
  - intros q' source' Hin. apply (Hfs q' source'). by right.
Qed.

(** The record under an FQN is that of the last file read with it. *)
Lemma dict_get_foldl_store mi before p source after :
  (∀ q source', (q, source') ∈ after → to_fqn q ≠ to_fqn p) →
  dict_get (foldl store mi (before ++ (p, source) :: after)) (to_fqn p)
  = Some (scanned_record p source).
Proof.
  intros Hafter. rewrite foldl_app. simpl.
  rewrite dict_get_foldl_store_other by done.
  unfold store. simpl. apply dict_get_set_eq.
Qed.

Lemma elem_of_foldl_store fs fqn data : ∀ mi,
  (fqn, data) ∈ foldl store mi fs →
  (fqn, data) ∈ mi ∨
  ∃ p source, (p, source) ∈ fs ∧ fqn = to_fqn p ∧ data = scanned_record p source.
Proof.
  induction fs as [|[p source] fs IH]; intros mi; simpl; [by left|].
  intros [Hin|(q & src & Hq & -> & ->)]%IH.
  - unfold store in Hin. simpl in Hin.
    apply elem_of_dict_set in Hin as [[= -> ->]|Hin]; [|by left].
    right. exists p, source. split; [left|done].
  - right. exists q, src. split; [by right|done].
Qed.

Lemma scan_result_lookup top s before p source after :
  scanned_files top = before ++ (p, source) :: after →
  (∀ q source', (q, source') ∈ after → to_fqn q ≠ to_fqn p) →
  dict_get (module_info (scan_result top s)) (to_fqn p)
  = Some (categorize (scan_result top s) (scanned_record p source)).
Proof.
  intros Hfiles Hafter. unfold scan_result at 1. cbn [module_info _categorize_imports].
  rewrite dict_get_fmap, Hfiles, dict_get_foldl_store by done. done.
Qed.

Lemma scan_result_elem_of top s fqn data :
  (fqn, data) ∈ module_info (scan_result top s) →
  ∃ source, (path data, source) ∈ scanned_files top.
Proof.
  unfold scan_result. intros (data0 & Hin & ->)%elem_of_categorize_imports.
  cbn [module_info] in Hin.
  apply elem_of_foldl_store in Hin as [Hin|(p & source & Hin & -> & ->)].
  - by apply elem_of_nil in Hin.
  - rewrite categorize_filter. simpl. eauto.
Qed.

(** *** Directories with the marker of a virtual environment *)

Lemma elem_of_flat_map {A B} (f : A → list B) (l : list A) (y : B) :
  y ∈ flat_map f l ↔ ∃ x, x ∈ l ∧ y ∈ f x.
Proof.
  rewrite list_elem_of_In, in_flat_map. setoid_rewrite list_elem_of_In. done.
Qed.

Lemma flat_map_flat_map {A B C} (f : B → list C) (g : A → list B) (l : list A) :
  flat_map f (flat_map g l) = flat_map (λ x, flat_map f (g x)) l.
Proof.
  induction l as [|x l IH]; simpl; [done|]. by rewrite flat_map_app, IH.
Qed.

Lemma scanned_from_dir root name children :
  scanned_from root (Dir name children)
  = scanned_in (root, files_of children)
    ++ (if is_venv (files_of children).*1 then []
        else flat_map (λ c, scanned_from (root ++ [node_name c]) c) children).
Proof.
  unfold scanned_from. cbn [os_walk flat_map]. f_equal.
  destruct (is_venv (files_of children).*1); [done|].
  apply flat_map_flat_map.
Qed.

Lemma elem_of_scanned_in root files p source :
  (p, source) ∈ scanned_in (root, files) →
  is_venv files.*1 = false ∧
  ∃ file, p = root ++ [file] ∧ (file, source) ∈ files.
Proof.
  unfold scanned_in. destruct (is_venv files.*1); [by intros ?%elem_of_nil|].
  intros ([file src] & Hin & Hsome)%list_elem_of_omap. split; [done|].
  destruct (endswith file ".py"); [|done]. injection Hsome as <- <-. eauto.
Qed.

Lemma elem_of_files_of children file source :
  (file, source) ∈ files_of children → File file source ∈ children.
Proof.
  induction children as [|[name src|name sub] children IH]; simpl.
  - by intros ?%elem_of_nil.
  - intros [[= -> ->]|Hin]%elem_of_cons; [left|right; auto].
  - intros Hin. right. auto.
Qed.

Lemma find_dir_Some name children sub :
  find_dir name children = Some sub → Dir name sub ∈ children.
Proof.
  induction children as [|[name' src|name' sub'] children IH]; simpl; [done|..].
  - intros Hfind. right. auto.
  - destruct (decide (name' = name)) as [->|Hne].
    + intros [= ->]. left.
    + intros Hfind. right. auto.
Qed.

Lemma NoDup_fmap_eq {A B} (f : A → B) (l : list A) a b :
  NoDup (f <$> l) → a ∈ l → b ∈ l → f a = f b → a = b.
Proof.
  induction l as [|x l IH]; simpl; [by intros _ ?%elem_of_nil|].
  intros [Hx Hl]%NoDup_cons [->|Ha]%elem_of_cons [->|Hb]%elem_of_cons Hab;
    [done| | |by apply IH].
  - exfalso. apply Hx. rewrite Hab. by apply list_elem_of_fmap_2.
  - exfalso. apply Hx. rewrite <- Hab. by apply list_elem_of_fmap_2.
Qed.

Lemma scanned_from_below n : ∀ root p source,
  (p, source) ∈ scanned_from root n → ∃ rest, p = root ++ rest.
Proof.
  induction n as [name src|name children IH] using fs_node_ind_nested;
    intros root p source.
  - by intros ?%elem_of_nil.
  - rewrite scanned_from_dir, elem_of_app.
    intros [(_ & file & -> & _)%elem_of_scanned_in|Hin]; [eauto|].
    destruct (is_venv (files_of children).*1); [by apply elem_of_nil in Hin|].
    apply elem_of_flat_map in Hin as (c & Hc & Hin).
    rewrite Forall_forall in IH.
    destruct (IH c Hc _ _ _ Hin) as [rest ->].
    exists (node_name c :: rest). by rewrite <- app_assoc.
Qed.

(** No file that the scan reads lies in or below a directory that holds the
    marker. *)
Lemma scanned_from_not_under n : ∀ root d marked p source,
  unique_names n →
  (p, source) ∈ scanned_from root n →
  dir_at (children_of n) d = Some marked →
  is_venv (files_of marked).*1 →
  ¬ (root ++ d) `prefix_of` p.
Proof.
  induction n as [name src|name children IH] using fs_node_ind_nested;
    intros root d marked p source Huniq Hin Hdir Hvenv.
  { by apply elem_of_nil in Hin. }
  simpl in Hdir, Huniq. apply andb_True in Huniq as [Hnd Hsub].
  apply bool_decide_spec in Hnd.
  rewrite scanned_from_dir, elem_of_app in Hin.
  destruct d as [|x d]; simpl in Hdir.
  - injection Hdir as <-. apply Is_true_true in Hvenv.
    destruct Hin as [(Hno & _)%elem_of_scanned_in|Hin]; [congruence|].
    rewrite Hvenv in Hin. by apply elem_of_nil in Hin.
  - destruct (find_dir x children) as [sub|] eqn:Hfind; [|done].
    apply find_dir_Some in Hfind.
    intros [k Hk].
    destruct Hin as [(_ & file & -> & Hfile)%elem_of_scanned_in|Hin].
    + apply elem_of_files_of in Hfile.
      rewrite <- app_assoc in Hk. apply app_inv_head in Hk.
      injection Hk as -> Hk.
      assert (File x source = Dir x sub) by (by eapply (NoDup_fmap_eq node_name)).
      done.
    + destruct (is_venv (files_of children).*1); [by apply elem_of_nil in Hin|].
      apply elem_of_flat_map in Hin as (c & Hc & Hin).
      destruct (scanned_from_below _ _ _ _ Hin) as [rest Hrest].
      assert (Hname : node_name c = x).
      { rewrite Hrest, <- !app_assoc in Hk. apply app_inv_head in Hk.
        simpl in Hk. by injection Hk. }
      assert (c = Dir x sub) as ->
        by (by eapply (NoDup_fmap_eq node_name)).
      rewrite Forall_forall in IH.
      apply (IH _ Hc (root ++ [x]) d marked p source); [|done..|].
      * apply Is_true_true in Hsub. rewrite forallb_forall in Hsub.
        apply Is_true_true, Hsub. by apply list_elem_of_In.
      * exists k. rewrite Hk. by rewrite <- !app_assoc.
Qed.

(** * The properties of the specification *)

(** ** Cycle detector *)




(** C9. The components that a call returns are pairwise disjoint, and none
    lists a node twice. A call that does not return raises
    [RecursionError], which takes a graph with more nodes than the
    interpreter allows nested calls. *)
Theorem scc_components_disjoint (limit : nat) (g : graph) :
  (∃ r, strongly_connected_components limit g = Ok r ∧
     pairwise_disjoint r ∧ ∀ c, c ∈ r → NoDup c) ∨
  (strongly_connected_components limit g = Raise RecursionError ∧
   limit < length (vertices g)).
Proof.
  destruct (scc_outcome g limit) as [(r & Hr & Hsound & _ & Hdisj)|Hraise];
    [left|by right].
  exists r. split_and!; [done..|].
  intros c Hc. by destruct (Hsound c Hc) as (_ & _ & ? & _).
Qed.




(** ** Name resolver *)

(** C4. [resolve_from_import] takes the segments of the FQN without the
    last one; a level above 1 drops [level - 1] further trailing segments
    (all of them when there are fewer), every other level, 1 and 0 among
    them, keeps the prefix; the result is the prefix joined with the module
    clause when one is supplied, and the prefix alone otherwise. *)
Theorem resolve_from_import_spec (fqn : string) (level : Z)
  (module : option string) :
  resolve_from_import fqn level module
  = join_dot
      ((if decide (1 < level)%Z
        then drop_trailing (Z.to_nat (level - 1)) (enclosing_package fqn)
        else enclosing_package fqn) ++ supplied module)
  ∧ resolve_from_import "a.b.c" 1 (Some "d") = "a.b.d"
  ∧ resolve_from_import "a.b.c" 2 (Some "d") = "a.d"
  ∧ resolve_from_import "a.b.c" 0 (Some "x.y") = "a.b.x.y".
Proof.
  split; [|done].
  unfold resolve_from_import, enclosing_package.
  rewrite (slice_to_negative _ 1) by lia.
  set (pkg := drop_trailing 1 (split_dot fqn)).
  assert (Hparts :
    (if decide (level ≠ 0%Z)
     then if decide (1 < level)%Z then slice_to pkg (- level + 1) else pkg
     else pkg)
    = if decide (1 < level)%Z then drop_trailing (Z.to_nat (level - 1)) pkg
      else pkg).
  { destruct (decide (1 < level)%Z) as [Hlt|Hle].
    - rewrite decide_True by lia.
      rewrite <- (slice_to_negative pkg (Z.to_nat (level - 1))) by lia.
      f_equal. lia.
    - by destruct (decide (level ≠ 0%Z)). }
  rewrite Hparts. unfold supplied. destruct module as [m|].
  - destruct (decide (m = EmptyString)) as [->|Hm].
    + rewrite decide_False by auto. by rewrite app_nil_r.
    + by rewrite decide_True.
  - by rewrite app_nil_r.
Qed.

(** ** Import classifier *)

(** C2. After classification the internal and the external imports of a
    record hold together the elements of its raw import list, each
    occurrence once; both keep the order of the raw list; and no target is
    in both. The raw list is the one the record had before. *)
Theorem classifier_partition (s : scanner) (fqn : string)
  (data : module_record) :
  (fqn, data) ∈ module_info (_categorize_imports s) →
  ∃ internal external,
    internal_imports data = Some internal ∧
    external_imports data = Some external ∧
    internal ++ external ≡ₚ imports data ∧
    internal `sublist_of` imports data ∧
    external `sublist_of` imports data ∧
    (∀ t, t ∈ internal → t ∉ external) ∧
    ∃ data0, (fqn, data0) ∈ module_info s ∧ imports data = imports data0.
Proof.
  intros (data0 & Hin & ->)%elem_of_categorize_imports.
  rewrite categorize_filter. simpl. do 2 eexists. split_and!; [done..| | | | |].
  - apply filter_app_complement.
  - apply sublist_filter.
  - apply sublist_filter.
  - intros t [Ht _]%list_elem_of_filter [Hnt _]%list_elem_of_filter. done.
  - eauto.
Qed.

(** C3. A target of a raw import list is classified internal exactly when
    it is a member of [all_local_modules] or its first dotted segment is a
    member of [local_packages], and external exactly when neither holds. The
    first segment is the target up to its first dot. *)
Theorem classifier_rule (s : scanner) (fqn : string) (data : module_record)
  (t : string) :
  (fqn, data) ∈ module_info (_categorize_imports s) →
  t ∈ imports data →
  ∃ internal external,
    internal_imports data = Some internal ∧
    external_imports data = Some external ∧
    (t ∈ internal ↔
       t ∈ all_local_modules s ∨ hd EmptyString (split_dot t) ∈ local_packages s) ∧
    (t ∈ external ↔
       ¬ (t ∈ all_local_modules s ∨ hd EmptyString (split_dot t) ∈ local_packages s)) ∧
    ∃ rest, t = join_dot (hd EmptyString (split_dot t) :: rest) ∧
      rfind_dot (hd EmptyString (split_dot t)) = None.
Proof.
  intros (data0 & Hin & ->)%elem_of_categorize_imports.
  rewrite categorize_filter. simpl. intros Ht.
  do 2 eexists. split_and!; [done..| | |].
  - rewrite list_elem_of_filter, is_internal_rule. naive_solver.
  - rewrite list_elem_of_filter, is_internal_rule. naive_solver.
  - apply first_segment_spec.
Qed.

Lemma classifier_partition_witness :
  ("main", classifier_example_record)
    ∈ module_info (_categorize_imports classifier_example) ∧
  ∃ internal external,
    Some ["pkg.a"; "util"] = Some internal ∧
    Some ["os"; "os"] = Some external ∧
    internal ++ external ≡ₚ ["pkg.a"; "os"; "util"; "os"] ∧
    internal `sublist_of` ["pkg.a"; "os"; "util"; "os"] ∧
    external `sublist_of` ["pkg.a"; "os"; "util"; "os"] ∧
    (∀ t, t ∈ internal → t ∉ external) ∧
    ∃ data0, ("main", data0) ∈ module_info classifier_example ∧
      ["pkg.a"; "os"; "util"; "os"] = imports data0.
Proof.
  assert (H : ("main", classifier_example_record)
                ∈ module_info (_categorize_imports classifier_example))
    by (vm_compute; left).
  split; [exact H|].
  exact (classifier_partition classifier_example "main"
           classifier_example_record H).
Defined.

Lemma classifier_rule_witness :
  ("main", classifier_example_record)
    ∈ module_info (_categorize_imports classifier_example) ∧
  "pkg.a" ∈ imports classifier_example_record ∧
  ∃ internal external,
    Some ["pkg.a"; "util"] = Some internal ∧
    Some ["os"; "os"] = Some external ∧
    ("pkg.a" ∈ internal ↔
       "pkg.a" ∈ all_local_modules classifier_example
       ∨ hd EmptyString (split_dot "pkg.a") ∈ local_packages classifier_example) ∧
    ("pkg.a" ∈ external ↔
       ¬ ("pkg.a" ∈ all_local_modules classifier_example
          ∨ hd EmptyString (split_dot "pkg.a") ∈ local_packages classifier_example)) ∧
    ∃ rest, "pkg.a" = join_dot (hd EmptyString (split_dot "pkg.a") :: rest) ∧
      rfind_dot (hd EmptyString (split_dot "pkg.a")) = None.
Proof.
  assert (H1 : ("main", classifier_example_record)
                 ∈ module_info (_categorize_imports classifier_example))
    by (vm_compute; left).
  assert (H2 : "pkg.a" ∈ imports classifier_example_record) by (simpl; left).
  split; [exact H1|]. split; [exact H2|].
  exact (classifier_rule classifier_example "main" classifier_example_record
           "pkg.a" H1 H2).
Defined.

(** ** Source walker *)

(** C6, as stated, fails: the import nested in the function comes first in
    the source text and last in the raw import list. *)
Lemma scan_file_not_source_order :
  ∃ mi, _scan_file (Some nested_import) "m" [("m", new_record ["m.py"])]
        = Ok mi ∧
    imports <$> dict_get mi "m" = Some ["b"; "a"] ∧
    flat_map (import_targets "m") (source_order nested_import) = ["a"; "b"] ∧
    imports <$> dict_get mi "m"
    ≠ Some (flat_map (import_targets "m") (source_order nested_import)).
Proof. eexists. split_and!; [vm_compute; reflexivity|done..]. Qed.

(** C6, amended. For a file that parses, [_scan_file] appends to the raw
    import list of the module one entry per named target of each plain
    import and one resolved entry per from-import, duplicates kept, in the
    order in which [ast.walk] yields the statements, which is breadth
    first; when every import statement is at the top level of the module,
    that is the order of the source text. *)
Theorem scan_file_imports (fqn : string) (tree : ast)
  (mi : dict module_record) (r : module_record) :
  dict_get mi fqn = Some r →
  _scan_file (Some tree) fqn mi
  = Ok (dict_set fqn
          (with_imports r (flat_map (import_targets fqn) (ast_walk tree))) mi)
  ∧ flat_map (import_targets fqn) (ast_walk tree)
    ≡ₚ flat_map (import_targets fqn) (source_order tree)
  ∧ (imports_at_top_level tree →
     flat_map (import_targets fqn) (ast_walk tree)
     = flat_map (import_targets fqn) (source_order tree)).
Proof.
  intros Hget. split_and!.
  - by apply (scan_file_spec (Some tree)).
  - apply Permutation_flat_map, ast_walk_permutation.
  - apply ast_walk_top_level.
Qed.

Lemma scan_file_imports_witness :
  dict_get [("p.m", new_record ["p"; "m.py"])] "p.m"
  = Some (new_record ["p"; "m.py"]) ∧
  imports_at_top_level flat_imports ∧
  _scan_file (Some flat_imports) "p.m" [("p.m", new_record ["p"; "m.py"])]
  = Ok [("p.m",
         {| path := ["p"; "m.py"]; imports := ["os"; "sys"; "p.x"; "os"];
            internal_imports := None; external_imports := None |})]
  ∧ flat_map (import_targets "p.m") (ast_walk flat_imports)
    = flat_map (import_targets "p.m") (source_order flat_imports).
Proof.
  assert (H : dict_get [("p.m", new_record ["p"; "m.py"])] "p.m"
              = Some (new_record ["p"; "m.py"])) by reflexivity.
  assert (Htop : imports_at_top_level flat_imports) by (vm_compute; exact I).
  split; [exact H|]. split; [exact Htop|].
  destruct (scan_file_imports "p.m" flat_imports
              [("p.m", new_record ["p"; "m.py"])]
              (new_record ["p"; "m.py"]) H) as (Hscan & _ & Horder).
  split; [exact Hscan|exact (Horder Htop)].
Defined.

(** C7, as stated, fails twice. A source file that does not parse gets no
    record when it lies in a directory with the marker of a virtual
    environment, and none when a file read later has the same FQN; either
    way a tree with one invalid and one valid source file yields one
    record. *)
Lemma scan_drops_unparsable :
  (source_files tree_with_venv
   = [(["ok.py"], Some (Node [Import ["os"]])); (["env"; "broken.py"], None)]
   ∧ ∃ s, scan (Some tree_with_venv) new_scanner = Ok s ∧
       module_info s
       = [("ok", {| path := ["ok.py"]; imports := ["os"];
                    internal_imports := Some [];
                    external_imports := Some ["os"] |})])
  ∧
  (source_files tree_with_clash
   = [(["a.b.py"], None); (["a"; "b.py"], Some (Node [Import ["os"]]))]
   ∧ ∃ s, scan (Some tree_with_clash) new_scanner = Ok s ∧
       module_info s
       = [("a.b", {| path := ["a"; "b.py"]; imports := ["os"];
                     internal_imports := Some [];
                     external_imports := Some ["os"] |})]).
Proof.
  split; (split; [reflexivity|]); eexists; (split; [vm_compute; reflexivity|]);
    reflexivity.
Qed.

(** C7, amended. The scan of a directory returns, whatever the files hold.
    A source file that the scan reads (it lies in no directory with the
    marker, and below none) has, at the end of the scan, a record under its
    FQN, provided that no file read after it has the same FQN: with its path
    and empty import data when the file does not parse, and with its path
    and the targets of its import statements, classified, when it does, also
    after a file that does not. When the scan reads two source files with
    different FQNs, one that does not parse and one that does, there are
    exactly two records at the end. *)
Theorem scan_keeps_unparsable (name : string) (children : list fs_node)
  (s : scanner) :
  ∃ s', scan (Some (Dir name children)) s = Ok s' ∧
    (∀ before p after,
       scanned_files (Dir name children) = before ++ (p, None) :: after →
       (∀ q source, (q, source) ∈ after → to_fqn q ≠ to_fqn p) →
       dict_get (module_info s') (to_fqn p)
       = Some {| path := p; imports := []; internal_imports := Some [];
                 external_imports := Some [] |}) ∧
    (∀ before p tree after,
       scanned_files (Dir name children) = before ++ (p, Some tree) :: after →
       (∀ q source, (q, source) ∈ after → to_fqn q ≠ to_fqn p) →
       dict_get (module_info s') (to_fqn p)
       = Some (categorize s'
                 {| path := p;
                    imports :=
                      flat_map (import_targets (to_fqn p)) (ast_walk tree);
                    internal_imports := None; external_imports := None |})) ∧
    (∀ p1 p2 tree,
       to_fqn p1 ≠ to_fqn p2 →
       scanned_files (Dir name children) ≡ₚ [(p1, None); (p2, Some tree)] →
       length (module_info s') = 2).
Proof.
  exists (scan_result (Dir name children) s).
  split; [apply scan_directory|]. split_and!.
  - intros before p after Hfiles Hafter.
    by rewrite (scan_result_lookup _ _ _ _ _ _ Hfiles Hafter).
  - intros before p tree after Hfiles Hafter.
    by rewrite (scan_result_lookup _ _ _ _ _ _ Hfiles Hafter).
  - intros p1 p2 tree Hne Hperm. symmetry in Hperm.
    unfold scan_result. cbn [module_info _categorize_imports].
    rewrite length_fmap.
    apply Permutation_length_2_inv in Hperm as [-> | ->]; simpl;
      unfold store; simpl; by rewrite decide_False.
Qed.

Lemma scan_keeps_unparsable_witness :
  scanned_files tree_with_broken_file
  = [(["bad.py"], None);
     (["good.py"], Some (Node [Import ["os"]; ImportFrom (Some "bad") 1]))] ∧
  to_fqn ["bad.py"] ≠ to_fqn ["good.py"] ∧
  ∃ s', scan (Some tree_with_broken_file) new_scanner = Ok s' ∧
    length (module_info s') = 2 ∧
    dict_get (module_info s') "bad"
    = Some {| path := ["bad.py"]; imports := [];
              internal_imports := Some []; external_imports := Some [] |} ∧
    dict_get (module_info s') "good"
    = Some (categorize s'
              {| path := ["good.py"]; imports := ["os"; "bad"];
                 internal_imports := None; external_imports := None |}).
Proof.
  assert (Hfiles : scanned_files tree_with_broken_file
    = [(["bad.py"], None);
       (["good.py"], Some (Node [Import ["os"]; ImportFrom (Some "bad") 1]))])
    by reflexivity.
  assert (Hne : to_fqn ["bad.py"] ≠ to_fqn ["good.py"])
    by (vm_compute; congruence).
  split; [exact Hfiles|]. split; [exact Hne|].
  destruct (scan_keeps_unparsable "proj"
              [File "bad.py" None;
               File "good.py"
                 (Some (Node [Import ["os"]; ImportFrom (Some "bad") 1]))]
              new_scanner) as (s' & Hscan & Hbad & Hgood & Htwo).
  exists s'. split; [exact Hscan|]. split_and!.
  - apply (Htwo ["bad.py"] ["good.py"]
             (Node [Import ["os"]; ImportFrom (Some "bad") 1]) Hne).
    change (scanned_files tree_with_broken_file ≡ₚ
              [(["bad.py"], None);
               (["good.py"],
                Some (Node [Import ["os"]; ImportFrom (Some "bad") 1]))]).
    by rewrite Hfiles.
  - apply (Hbad [] ["bad.py"] _ Hfiles).
    intros q source Hin. apply list_elem_of_singleton in Hin.
    injection Hin as -> _. exact (not_eq_sym Hne).
  - apply (Hgood [(["bad.py"], None)] ["good.py"] _ [] Hfiles).
    intros q source Hin. by apply elem_of_nil in Hin.
Defined.

(** C8. When a directory of the tree holds the marker of a virtual
    environment, no record of the scan has the path of a file in that
    directory or below it. *)
Theorem scan_skips_venv (name : string) (children : list fs_node)
  (s : scanner) (d : rel_path) (marked : list fs_node) :
  unique_names (Dir name children) →
  dir_at children d = Some marked →
  is_venv (files_of marked).*1 →
  ∃ s', scan (Some (Dir name children)) s = Ok s' ∧
    ∀ fqn data, (fqn, data) ∈ module_info s' → ¬ d `prefix_of` path data.
Proof.
  intros Huniq Hdir Hvenv. exists (scan_result (Dir name children) s).
  split; [apply scan_directory|].
  intros fqn data [source Hin]%scan_result_elem_of.
  by apply (scanned_from_not_under (Dir name children) [] d marked
              (path data) source).
Qed.

Lemma scan_skips_venv_witness :
  unique_names tree_with_deep_venv ∧
  dir_at (children_of tree_with_deep_venv) ["venv"]
  = Some [File "pyvenv.cfg" None;
          File "x.py" (Some (Node [Import ["q"]]));
          Dir "lib" [File "y.py" (Some (Node []))]] ∧
  is_venv ["pyvenv.cfg"; "x.py"] ∧
  ∃ s', scan (Some tree_with_deep_venv) new_scanner = Ok s' ∧
    ∀ fqn data, (fqn, data) ∈ module_info s' →
      ¬ ["venv"] `prefix_of` path data.
Proof.
  assert (H1 : unique_names tree_with_deep_venv) by (vm_compute; exact I).
  assert (H2 : dir_at (children_of tree_with_deep_venv) ["venv"]
    = Some [File "pyvenv.cfg" None;
            File "x.py" (Some (Node [Import ["q"]]));
            Dir "lib" [File "y.py" (Some (Node []))]]) by reflexivity.
  assert (H3 : is_venv ["pyvenv.cfg"; "x.py"]) by (vm_compute; exact I).
  split; [exact H1|]. split; [exact H2|]. split; [exact H3|].
  exact (scan_skips_venv "proj" _ new_scanner ["venv"] _ H1 H2 H3).
Defined.

(** ** Scanning without a project root *)

(** C5 fails on the code. A scan whose project root is missing, or is not
    a directory, returns without raising and leaves no module record and an
    empty graph, but it leaves the catalog as it was: line 110 returns
    before lines 136-137 clear it. After a scan of a project with a package
    the catalog of that scan is still there. *)
Theorem scan_missing_root_keeps_catalog :
  (∀ top s, (∀ name children, top ≠ Some (Dir name children)) →
     ∃ after, scan top s = Ok after ∧
       module_info after = [] ∧ build_graph after = [] ∧
       local_packages after = local_packages s ∧
       all_local_modules after = all_local_modules s) ∧
  (∃ prev, scan (Some project_with_package) new_scanner = Ok prev ∧
     ∀ top, top = None ∨ top = Some (File "proj" None) →
       ∃ after, scan top prev = Ok after ∧
         module_info after = [] ∧ build_graph after = [] ∧
         local_packages after = {["pkg"]} ∧
         all_local_modules after = {["pkg.__init__"]}).
Proof.
  split.
  - intros top s Htop. eexists. split; [by apply scan_invalid_root|done].
  - exists (scan_result project_with_package new_scanner).
    split; [exact (scan_directory _ _ _)|].
    intros top [-> | ->]; eexists; (split; [reflexivity|]);
      split_and!; try reflexivity; vm_compute; reflexivity.
Qed.

(** * Further properties *)

(** ** Cycle detector *)

Lemma scc_two_members g c :
  is_scc g c → 2 ≤ length c →
  ∃ x y, x ∈ c ∧ y ∈ c ∧ x ≠ y ∧ mutually_reachable g x y.
Proof.
  intros (_ & Hnd & Hscc) Hlen.
  destruct c as [|x [|y c]]; simpl in Hlen; [lia..|].
  exists x, y. apply NoDup_cons in Hnd as [Hx _].
  split_and!; [left|right; left| |].
  - intros ->. apply Hx. left.
  - apply (Hscc x); [left|right; left].
Qed.





(** *** Independence of the order of iteration *)

Lemma same_edges_reach g1 g2 x y : same_edges g1 g2 → reach g1 x y → reach g2 x y.
Proof.
  intros Hsame Hxy. induction Hxy as [|x z y Hxz _ IH]; [apply rtc_refl|].
  eapply rtc_l; [by apply Hsame|done].
Qed.

Lemma same_edges_sym g1 g2 : same_edges g1 g2 → same_edges g2 g1.
Proof. intros H x y. by rewrite (H x y). Qed.

Lemma same_edges_mutually_reachable g1 g2 x y :
  same_edges g1 g2 → mutually_reachable g1 x y → mutually_reachable g2 x y.
Proof. intros Hsame [? ?]. split; by eapply same_edges_reach. Qed.

Lemma cycles_of_cover g1 g2 r1 r2 :
  same_edges g1 g2 → cycles_of g1 r1 → cycles_of g2 r2 →
  ∀ c1, c1 ∈ r1 → ∃ c2, c2 ∈ r2 ∧ c1 ≡ₚ c2.
Proof.
  intros Hsame (Hsound1 & _ & _) (Hsound2 & Hcomplete2 & _) c1 Hc1.
  destruct (Hsound1 c1 Hc1) as [Hlen Hscc1].
  destruct (scc_two_members g1 c1 Hscc1 Hlen) as (x & y & Hx & _ & Hne & Hxy).
  destruct (Hcomplete2 x y Hne) as (c2 & Hc2 & Hx2 & _).
  { by eapply same_edges_mutually_reachable. }
  exists c2. split; [done|].
  destruct Hscc1 as (_ & Hnd1 & Hscc1).
  destruct (Hsound2 c2 Hc2) as [_ (_ & Hnd2 & Hscc2)].
  apply NoDup_Permutation; [done..|]. intros z.
  rewrite (Hscc1 x Hx z), (Hscc2 x Hx2 z). split.
  - by apply same_edges_mutually_reachable.
  - by apply same_edges_mutually_reachable, same_edges_sym.
Qed.

Lemma pairwise_disjoint_sets g r :
  cycles_of g r →
  NoDup ((list_to_set <$> r) : list (gset string)).
Proof.
  intros (Hsound & _ & Hdisj). apply NoDup_alt. intros i j X Hi Hj.
  apply list_lookup_fmap_Some in Hi as (ci & -> & Hi).
  apply list_lookup_fmap_Some in Hj as (cj & Heq & Hj).
  destruct (decide (i = j)) as [|Hij]; [done|]. exfalso.
  destruct (Hsound ci) as [_ (Hne & _ & _)];
    [by eapply list_elem_of_lookup_2|].
  destruct ci as [|x ci]; [done|].
  apply (Hdisj i j _ _ Hi Hj Hij x); [left|].
  apply (elem_of_list_to_set (C := gset string)). rewrite <- Heq.
  apply elem_of_list_to_set. left.
Qed.

Lemma cycles_of_sets g1 g2 r1 r2 :
  same_edges g1 g2 → cycles_of g1 r1 → cycles_of g2 r2 →
  (list_to_set ((list_to_set <$> r1) : list (gset string)) : gset (gset string))
  ⊆ list_to_set ((list_to_set <$> r2) : list (gset string)).
Proof.
  intros Hsame H1 H2 X HX. apply elem_of_list_to_set in HX.
  apply list_elem_of_fmap in HX as (c1 & -> & Hc1).
  destruct (cycles_of_cover g1 g2 r1 r2 Hsame H1 H2 c1 Hc1) as (c2 & Hc2 & Hp).
  apply elem_of_list_to_set, list_elem_of_fmap. exists c2. split; [|done].
  apply set_eq. intros z. rewrite !elem_of_list_to_set. by rewrite Hp.
Qed.

Lemma cycles_of_same_edges g1 g2 r1 r2 :
  same_edges g1 g2 → cycles_of g1 r1 → cycles_of g2 r2 →
  length r1 = length r2 ∧
  (∀ c1, c1 ∈ r1 → ∃ c2, c2 ∈ r2 ∧ c1 ≡ₚ c2) ∧
  (∀ c2, c2 ∈ r2 → ∃ c1, c1 ∈ r1 ∧ c1 ≡ₚ c2).
Proof.
  intros Hsame H1 H2. split_and!.
  - assert (Hsize : ∀ g r, cycles_of g r →
      size (list_to_set ((list_to_set <$> r) : list (gset string))
              : gset (gset string)) = length r).
    { intros g r Hr. rewrite size_list_to_set by by eapply pairwise_disjoint_sets.
      by rewrite length_fmap. }
    rewrite <- (Hsize g1 r1 H1), <- (Hsize g2 r2 H2). f_equal.
    apply set_eq. intros X. split.
    + by apply (cycles_of_sets g1 g2).
    + apply (cycles_of_sets g2 g1); [by apply same_edges_sym|done..].
  - by eapply cycles_of_cover.
  - intros c2 Hc2.
    destruct (cycles_of_cover g2 g1 r2 r1 (same_edges_sym _ _ Hsame) H2 H1 c2 Hc2)
      as (c1 & Hc1 & Hp).
    exists c1. split; [done|]. by symmetry.
Qed.

Lemma graph_get_elem_of g v ws :
  NoDup (keys g) → (v, ws) ∈ g → graph_get g v = ws.
Proof.
  induction g as [|[k ws'] g IH]; simpl; [by intros _ ?%elem_of_nil|].
  intros [Hk Hnd]%NoDup_cons [[= <- <-]|Hin]%elem_of_cons.
  - by rewrite decide_True.
  - rewrite decide_False; [by apply IH|].
    intros ->. apply Hk. by apply (list_elem_of_fmap_2 fst) in Hin.
Qed.

(** The order of the keys does not change the edges. *)
Lemma same_edges_reverse g : NoDup (keys g) → same_edges g (reverse g).
Proof.
  intros Hnd x y. unfold edge.
  assert (Hrev : keys (reverse g) = reverse (keys g))
    by (unfold keys; by rewrite fmap_reverse).
  destruct (decide (x ∈ keys g)) as [Hx|Hx].
  - apply list_elem_of_fmap in Hx as ([k ws] & -> & Hin). simpl.
    rewrite (graph_get_elem_of g k ws) by done.
    rewrite (graph_get_elem_of (reverse g) k ws); [done| |].
    + rewrite Hrev. by rewrite reverse_Permutation.
    + by apply elem_of_reverse.
  - rewrite !graph_get_not_key; [done| |done].
    rewrite Hrev. by rewrite elem_of_reverse.
Qed.

Lemma chain_keys_NoDup n : NoDup (keys (chain n)).
Proof.
  unfold keys, chain. rewrite <-list_fmap_compose.
  apply NoDup_fmap_2_strong; [|apply NoDup_seq].
  intros i j _ _ Heq. by apply chain_node_inj in Heq.
Qed.

(** X3. Calls that return on two graphs with the same edges, whatever the
    order of their keys and of their successor sets, return the same cycles:
    as many, with the same members. Only the order in which the cycles and
    their members are listed can differ. Whether a call returns does depend
    on the order: with room for a thousand nested calls the chain of the
    modules [n0] to [n1100] raises [RecursionError] with its keys in this
    order and returns the empty list with its keys in the opposite order. *)
Theorem scc_order_independent (limit1 limit2 : nat) (g1 g2 : graph) :
  (same_edges g1 g2 →
   ∀ r1 r2,
     strongly_connected_components limit1 g1 = Ok r1 →
     strongly_connected_components limit2 g2 = Ok r2 →
     length r1 = length r2 ∧
     (∀ c1, c1 ∈ r1 → ∃ c2, c2 ∈ r2 ∧ c1 ≡ₚ c2) ∧
     (∀ c2, c2 ∈ r2 → ∃ c1, c1 ∈ r1 ∧ c1 ≡ₚ c2)) ∧
  (same_edges (chain 1100) (reverse (chain 1100)) ∧
   strongly_connected_components 1000 (chain 1100) = Raise RecursionError ∧
   strongly_connected_components 1000 (reverse (chain 1100)) = Ok []).
Proof.
  split.
  - intros Hsame r1 r2 Hr1%scc_returns Hr2%scc_returns.
    by apply (cycles_of_same_edges g1 g2).
  - split_and!.
    + apply same_edges_reverse, chain_keys_NoDup.
    + apply chain_raises. lia.
    + vm_compute. reflexivity.
Qed.

Lemma scc_order_independent_witness :
  same_edges example_graph example_graph_reordered ∧
  strongly_connected_components 1000 example_graph = Ok [["C"; "B"; "A"]] ∧
  strongly_connected_components 3 example_graph_reordered
  = Ok [["B"; "A"; "C"]] ∧
  length [["C"; "B"; "A"]] = length [["B"; "A"; "C"]] ∧
  (∀ c1, c1 ∈ [["C"; "B"; "A"]] → ∃ c2, c2 ∈ [["B"; "A"; "C"]] ∧ c1 ≡ₚ c2) ∧
  (∀ c2, c2 ∈ [["B"; "A"; "C"]] → ∃ c1, c1 ∈ [["C"; "B"; "A"]] ∧ c1 ≡ₚ c2).
Proof.
  assert (H : same_edges example_graph example_graph_reordered).
  { intros x y. unfold edge. simpl. repeat case_decide; subst; done. }
  assert (H1 : strongly_connected_components 1000 example_graph
               = Ok [["C"; "B"; "A"]]) by (vm_compute; reflexivity).
  assert (H2 : strongly_connected_components 3 example_graph_reordered
               = Ok [["B"; "A"; "C"]]) by (vm_compute; reflexivity).
  split; [exact H|]. split; [exact H1|]. split; [exact H2|].
  exact (proj1 (scc_order_independent 1000 3 example_graph
                  example_graph_reordered) H _ _ H1 H2).
Defined.

(** *** The order of the cycles *)








(** ** Name resolver *)

Lemma append_cons c (a b : string) : String c a +:+ b = String c (a +:+ b).
Proof. done. Qed.

Lemma append_nil (b : string) : EmptyString +:+ b = b.
Proof. done. Qed.

Lemma append_assoc (a b c : string) : (a +:+ b) +:+ c = a +:+ (b +:+ c).
Proof.
  induction a as [|x a IH]; [done|]. by rewrite !append_cons, IH.
Qed.

Lemma length_append (a b : string) :
  String.length (a +:+ b) = String.length a + String.length b.
Proof.
  induction a as [|x a IH]; [done|]. rewrite append_cons. simpl. by rewrite IH.
Qed.

Lemma substring_all (s : string) : String.substring 0 (String.length s) s = s.
Proof. induction s as [|x s IH]; simpl; [done|]. by rewrite IH. Qed.

Lemma substring_prefix (a b : string) :
  String.substring 0 (String.length a) (a +:+ b) = a.
Proof.
  induction a as [|x a IH]; [by destruct b|].
  rewrite append_cons. simpl. by rewrite IH.
Qed.

Lemma substring_suffix (a b : string) :
  String.substring (String.length a) (String.length b) (a +:+ b) = b.
Proof.
  induction a as [|x a IH]; [|by rewrite append_cons].
  rewrite append_nil. apply substring_all.
Qed.

Lemma substring_split (n : nat) (s : string) :
  n ≤ String.length s →
  s = String.substring 0 n s +:+ String.substring n (String.length s - n) s.
Proof.
  revert n. induction s as [|x s IH]; intros [|n] Hn; simpl in *; try lia.
  - done.
  - rewrite append_nil. by rewrite substring_all.
  - rewrite append_cons. f_equal. apply IH. lia.
Qed.

(** [s.endswith(suffix)] holds exactly of the strings that end with the
    suffix. *)
Lemma endswith_spec (s suffix : string) :
  endswith s suffix = true ↔ ∃ stem, s = stem +:+ suffix.
Proof.
  unfold endswith. split.
  - intros [Hlen Heq]%andb_true_iff.
    apply Nat.leb_le in Hlen. apply String.eqb_eq in Heq.
    set (n := String.length s - String.length suffix) in *.
    assert (Hl : String.length suffix = String.length s - n) by lia.
    exists (String.substring 0 n s).
    pose proof (substring_split n s) as Hsplit.
    rewrite Hl in Heq. rewrite Heq in Hsplit. apply Hsplit. lia.
  - intros [stem ->]. apply andb_true_iff. rewrite length_append. split.
    + apply Nat.leb_le. lia.
    + apply String.eqb_eq.
      replace (String.length stem + String.length suffix - String.length suffix)
        with (String.length stem) by lia.
      apply substring_suffix.
Qed.

Lemma rfind_dot_py (stem : string) :
  rfind_dot (stem +:+ ".py") = Some (String.length stem).
Proof.
  induction stem as [|c stem IH]; [done|]. rewrite append_cons. simpl.
  by rewrite IH.
Qed.

Lemma with_suffix_empty_py (stem : string) :
  stem ≠ EmptyString → with_suffix_empty (stem +:+ ".py") = stem.
Proof.
  intros Hstem. unfold with_suffix_empty. rewrite rfind_dot_py, length_append.
  destruct stem as [|c stem]; [done|]. simpl String.length.
  replace (0 <? S (String.length stem)) with true
    by (symmetry; apply Nat.ltb_lt; lia).
  replace (S (String.length stem) <? S (String.length stem) + 3 - 1) with true
    by (symmetry; apply Nat.ltb_lt; lia).
  simpl andb. cbv iota.
  apply (substring_prefix (String c stem) ".py").
Qed.

Lemma to_fqn_snoc dirs name :
  to_fqn (dirs ++ [name]) = join_dot (dirs ++ [with_suffix_empty name]).
Proof.
  unfold to_fqn. rewrite reverse_snoc. by rewrite reverse_involutive.
Qed.

(** X5. The FQN of a source file is its path below the root with the
    [.py] taken off the file name and the components joined by dots, so
    that the file of a package, [__init__.py], keeps a component of its
    own. A file called just [.py] keeps its whole name. The name [..py],
    which [pathlib] does not treat alike in all its versions, is left
    out. *)
Theorem to_fqn_source_file (dirs : list string) (stem : string) :
  stem ≠ EmptyString → stem ≠ "." →
  to_fqn (dirs ++ [stem +:+ ".py"]) = join_dot (dirs ++ [stem]) ∧
  to_fqn (dirs ++ [".py"]) = join_dot (dirs ++ [".py"]).
Proof.
  intros Hstem _. split.
  - by rewrite to_fqn_snoc, with_suffix_empty_py.
  - by rewrite to_fqn_snoc.
Qed.

Lemma to_fqn_source_file_witness :
  "__init__" ≠ EmptyString ∧ "__init__" ≠ "." ∧
  to_fqn ["pkg"; "sub"; "__init__.py"] = "pkg.sub.__init__" ∧
  to_fqn ["pkg"; "sub"; ".py"] = "pkg.sub..py".
Proof.
  assert (H : "__init__" ≠ EmptyString) by done.
  assert (H' : "__init__" ≠ ".") by done.
  split; [exact H|]. split; [exact H'|].
  exact (to_fqn_source_file ["pkg"; "sub"] "__init__" H H').
Defined.

(** *** Dots *)

Lemma dot_free_cons c s :
  dot_free (String c s) ↔ c ≠ "."%char ∧ dot_free s.
Proof.
  unfold dot_free. simpl. destruct (rfind_dot s); [naive_solver|].
  destruct (Ascii.eqb_spec c "."); naive_solver.
Qed.

Lemma split_dot_dot_free s : dot_free s → split_dot s = [s].
Proof.
  induction s as [|c s IH]; [done|]. intros [Hc Hs]%dot_free_cons. simpl.
  destruct (Ascii.eqb_spec c "."); [done|]. by rewrite IH.
Qed.

Lemma split_dot_append x rest :
  dot_free x → split_dot (x +:+ "." +:+ rest) = x :: split_dot rest.
Proof.
  induction x as [|c x IH]; [done|]. intros [Hc Hx]%dot_free_cons.
  rewrite append_cons. simpl.
  destruct (Ascii.eqb_spec c "."); [done|]. by rewrite IH.
Qed.

(** Splitting the joined segments gives them back. *)
Lemma split_join_dot l :
  l ≠ [] → Forall dot_free l → split_dot (join_dot l) = l.
Proof.
  induction l as [|x l IH]; [done|]. intros _ [Hx Hl]%Forall_cons.
  destruct l as [|y l].
  - simpl. by apply split_dot_dot_free.
  - rewrite join_dot_cons by done. rewrite split_dot_append by done.
    by rewrite IH.
Qed.

Lemma join_dot_snoc2 l a b :
  join_dot (l ++ [a; b]) = join_dot (l ++ [a +:+ "." +:+ b]).
Proof.
  induction l as [|x l IH]; [done|].
  rewrite <- !app_comm_cons.
  rewrite !join_dot_cons by (by destruct l). by rewrite IH.
Qed.

(** X6. Paths whose names hold no dot but the one of [.py] have different
    FQNs: there the FQN is a key. *)
Theorem to_fqn_injective (dirs1 dirs2 : list string) (stem1 stem2 : string) :
  Forall dot_free (dirs1 ++ [stem1]) → Forall dot_free (dirs2 ++ [stem2]) →
  stem1 ≠ EmptyString → stem2 ≠ EmptyString →
  to_fqn (dirs1 ++ [stem1 +:+ ".py"]) = to_fqn (dirs2 ++ [stem2 +:+ ".py"]) →
  dirs1 = dirs2 ∧ stem1 = stem2.
Proof.
  intros H1 H2 Hs1 Hs2.
  rewrite !to_fqn_snoc, !with_suffix_empty_py by done. intros Heq.
  apply (f_equal split_dot) in Heq.
  rewrite (split_join_dot (dirs1 ++ [stem1])) in Heq;
    [|by destruct dirs1|done].
  rewrite (split_join_dot (dirs2 ++ [stem2])) in Heq;
    [|by destruct dirs2|done].
  by apply app_inj_tail in Heq.
Qed.

(** X7. A dot in a file name cannot be told from a directory boundary: the
    file [x.y.py] and the file [y.py] in the directory [x] have the same
    FQN. *)
Theorem to_fqn_dot_clash (dirs : list string) (x y : string) :
  x ≠ EmptyString → y ≠ EmptyString → dot_free y →
  to_fqn (dirs ++ [x +:+ "." +:+ y +:+ ".py"])
  = to_fqn (dirs ++ [x; y +:+ ".py"]).
Proof.
  intros _ Hy _.
  replace (dirs ++ [x; y +:+ ".py"]) with ((dirs ++ [x]) ++ [y +:+ ".py"])
    by by rewrite <- app_assoc.
  rewrite (to_fqn_snoc (dirs ++ [x])), with_suffix_empty_py by done.
  rewrite <- app_assoc. simpl. rewrite join_dot_snoc2.
  replace (x +:+ "." +:+ y +:+ ".py") with ((x +:+ "." +:+ y) +:+ ".py").
  - rewrite to_fqn_snoc, with_suffix_empty_py; [done|]. by destruct x.
  - by rewrite !append_assoc.
Qed.

Lemma to_fqn_injective_witness :
  Forall dot_free (["pkg"; "sub"] ++ ["a"]) ∧
  Forall dot_free (["pkg"; "sub"] ++ ["a"]) ∧
  "a" ≠ EmptyString ∧
  to_fqn (["pkg"; "sub"] ++ ["a" +:+ ".py"])
  = to_fqn (["pkg"; "sub"] ++ ["a" +:+ ".py"]) ∧
  ["pkg"; "sub"] = ["pkg"; "sub"] ∧ "a" = "a".
Proof.
  assert (H1 : Forall dot_free (["pkg"; "sub"] ++ ["a"]))
    by (repeat constructor).
  assert (H2 : "a" ≠ EmptyString) by done.
  assert (H3 : to_fqn (["pkg"; "sub"] ++ ["a" +:+ ".py"])
               = to_fqn (["pkg"; "sub"] ++ ["a" +:+ ".py"])) by reflexivity.
  split; [exact H1|]. split; [exact H1|]. split; [exact H2|].
  split; [exact H3|].
  exact (to_fqn_injective ["pkg"; "sub"] ["pkg"; "sub"] "a" "a" H1 H1 H2 H2 H3).
Defined.

Lemma to_fqn_dot_clash_witness :
  "a" ≠ EmptyString ∧ "b" ≠ EmptyString ∧ dot_free "b" ∧
  to_fqn ([] ++ ["a" +:+ "." +:+ "b" +:+ ".py"])
  = to_fqn ([] ++ ["a"; "b" +:+ ".py"]).
Proof.
  assert (Ha : "a" ≠ EmptyString) by done.
  assert (Hb : "b" ≠ EmptyString) by done.
  assert (Hfree : dot_free "b") by reflexivity.
  split; [exact Ha|]. split; [exact Hb|]. split; [exact Hfree|].
  exact (to_fqn_dot_clash [] "a" "b" Ha Hb Hfree).
Defined.

(** *** Relative imports *)

Lemma resolve_from_import_parts fqn level module :
  resolve_from_import fqn level module
  = join_dot
      (drop_trailing (Z.to_nat (level - 1)) (enclosing_package fqn)
       ++ supplied module).
Proof.
  unfold resolve_from_import, enclosing_package.
  rewrite (slice_to_negative _ 1) by lia.
  set (pkg := drop_trailing 1 (split_dot fqn)).
  assert (Hparts :
    (if decide (level ≠ 0%Z)
     then if decide (1 < level)%Z then slice_to pkg (- level + 1) else pkg
     else pkg)
    = drop_trailing (Z.to_nat (level - 1)) pkg).
  { destruct (decide (1 < level)%Z) as [Hlt|Hle].
    - rewrite decide_True by lia.
      rewrite <- (slice_to_negative pkg (Z.to_nat (level - 1))) by lia.
      f_equal. lia.
    - replace (Z.to_nat (level - 1)) with 0 by lia.
      unfold drop_trailing. rewrite Nat.sub_0_r, firstn_all.
      by destruct (decide (level ≠ 0%Z)). }
  rewrite Hparts. unfold supplied. destruct module as [m|].
  - destruct (decide (m = EmptyString)) as [->|Hm].
    + rewrite decide_False by auto. by rewrite app_nil_r.
    + by rewrite decide_True.
  - by rewrite app_nil_r.
Qed.

Lemma enclosing_package_join pkg m :
  Forall dot_free (pkg ++ [m]) → enclosing_package (join_dot (pkg ++ [m])) = pkg.
Proof.
  intros Hfree. unfold enclosing_package, drop_trailing.
  rewrite split_join_dot; [|by destruct pkg|done].
  rewrite length_app. simpl.
  replace (length pkg + 1 - 1) with (length pkg) by lia.
  by rewrite take_app_length.
Qed.

(** X8. From the module [m] of the package with the segments [pkg], an
    import of level [level] resolves to the package [level - 1] steps up,
    joined with the module clause when there is one; a level of 0 or 1 stays
    in the package of the module. *)
Theorem resolve_from_import_package (pkg : list string) (m : string)
  (level : Z) (module : option string) :
  Forall dot_free (pkg ++ [m]) →
  resolve_from_import (join_dot (pkg ++ [m])) level module
  = join_dot (drop_trailing (Z.to_nat (level - 1)) pkg ++ supplied module).
Proof.
  intros Hfree. by rewrite resolve_from_import_parts, enclosing_package_join.
Qed.

Lemma resolve_from_import_package_witness :
  Forall dot_free (["a"; "b"; "c"] ++ ["m"]) ∧
  resolve_from_import "a.b.c.m" 3 (Some "x") = "a.x".
Proof.
  assert (H : Forall dot_free (["a"; "b"; "c"] ++ ["m"]))
    by (repeat constructor).
  split; [exact H|].
  exact (resolve_from_import_package ["a"; "b"; "c"] "m" 3 (Some "x") H).
Defined.

(** X9. A level that climbs past the outermost package is no error: the
    prefix is empty and the result is the module clause alone, or the empty
    string when there is none. *)
Theorem resolve_from_import_overshoot (fqn : string) (level : Z)
  (module : option string) :
  length (enclosing_package fqn) ≤ Z.to_nat (level - 1) →
  resolve_from_import fqn level module = default EmptyString module.
Proof.
  intros Hlen. rewrite resolve_from_import_parts. unfold drop_trailing.
  replace (length (enclosing_package fqn) - Z.to_nat (level - 1)) with 0
    by lia.
  simpl. unfold supplied. destruct module as [m|]; [|done].
  by destruct (decide (m = EmptyString)) as [->|].
Qed.

Lemma resolve_from_import_overshoot_witness :
  length (enclosing_package "a.b.c") ≤ Z.to_nat (5 - 1) ∧
  resolve_from_import "a.b.c" 5 (Some "d") = "d" ∧
  resolve_from_import "a.b.c" 5 None = EmptyString.
Proof.
  assert (H : length (enclosing_package "a.b.c") ≤ Z.to_nat (5 - 1))
    by (vm_compute; lia).
  split; [exact H|]. split.
  - exact (resolve_from_import_overshoot "a.b.c" 5 (Some "d") H).
  - exact (resolve_from_import_overshoot "a.b.c" 5 None H).
Defined.

(** X10. [from .b import f] in the file [a.py] resolves to the FQN of the
    file [b.py] of the same directory: a relative import of a sibling names
    the key under which the scan stores the sibling. *)
Theorem resolve_from_import_sibling (dirs : list string) (a b : string) :
  Forall dot_free (dirs ++ [a]) → dot_free b →
  a ≠ EmptyString → b ≠ EmptyString →
  resolve_from_import (to_fqn (dirs ++ [a +:+ ".py"])) 1 (Some b)
  = to_fqn (dirs ++ [b +:+ ".py"]).
Proof.
  intros Hfree _ Ha Hbne.
  rewrite !to_fqn_snoc, !with_suffix_empty_py by done.
  rewrite resolve_from_import_parts, enclosing_package_join by done.
  simpl. unfold drop_trailing. rewrite Nat.sub_0_r, firstn_all.
  unfold supplied. by rewrite decide_False.
Qed.

Lemma resolve_from_import_sibling_witness :
  Forall dot_free (["pkg"; "sub"] ++ ["a"]) ∧ dot_free "b" ∧
  "a" ≠ EmptyString ∧ "b" ≠ EmptyString ∧
  resolve_from_import (to_fqn (["pkg"; "sub"] ++ ["a" +:+ ".py"])) 1 (Some "b")
  = to_fqn (["pkg"; "sub"] ++ ["b" +:+ ".py"]).
Proof.
  assert (H1 : Forall dot_free (["pkg"; "sub"] ++ ["a"]))
    by (repeat constructor).
  assert (H2 : dot_free "b") by reflexivity.
  assert (H3 : "a" ≠ EmptyString) by done.
  assert (H4 : "b" ≠ EmptyString) by done.
  split; [exact H1|]. split; [exact H2|]. split; [exact H3|].
  split; [exact H4|].
  exact (resolve_from_import_sibling ["pkg"; "sub"] "a" "b" H1 H2 H3 H4).
Defined.

(** ** Scanner *)

(** *** Keys of a dictionary *)

Section dict_keys.
Context {V : Type}.
Implicit Types (d : dict V) (k : string) (v : V).

Lemma dict_set_keys d k v :
  (dict_set k v d).*1 = if decide (k ∈ d.*1) then d.*1 else d.*1 ++ [k].
Proof.
  induction d as [|[k' v'] d IH].
  - destruct (decide (k ∈ ([] : dict V).*1)) as [Hin|_]; [|done].
    by apply elem_of_nil in Hin.
  - cbn [dict_set]. destruct (decide (k' = k)) as [->|Hne].
    + destruct (decide (k ∈ ((k, v') :: d).*1)) as [_|Hnin]; [done|].
      exfalso. apply Hnin. left.
    + rewrite fmap_cons, IH. cbn [fst].
      destruct (decide (k ∈ d.*1)) as [Hin|Hnin];
        destruct (decide (k ∈ ((k', v') :: d).*1)) as [Hin'|Hnin']; try done.
      * exfalso. apply Hnin'. by right.
      * exfalso. apply elem_of_cons in Hin' as [->|Hin']; done.
Qed.

Lemma dict_set_keys_NoDup d k v : NoDup d.*1 → NoDup (dict_set k v d).*1.
Proof.
  intros Hnd. rewrite dict_set_keys. case_decide; [done|].
  apply NoDup_app. split; [done|]. split; [|apply NoDup_singleton].
  intros x Hx ->%list_elem_of_singleton. done.
Qed.

Lemma dict_get_None d k : dict_get d k = None ↔ k ∉ d.*1.
Proof.
  induction d as [|[k' v'] d IH]; simpl.
  - split; [intros _; apply not_elem_of_nil|done].
  - rewrite not_elem_of_cons. destruct (decide (k' = k)) as [->|Hne]; naive_solver.
Qed.

Lemma dict_get_Some_elem_of d k v :
  NoDup d.*1 → dict_get d k = Some v ↔ (k, v) ∈ d.
Proof.
  induction d as [|[k' v'] d IH]; simpl.
  - intros _. split; [done|]. intros Hin. by apply elem_of_nil in Hin.
  - intros [Hk Hnd]%NoDup_cons. rewrite elem_of_cons.
    destruct (decide (k' = k)) as [->|Hne].
    + split; [by intros [= ->]; left|]. intros [[= ->]|Hin]; [done|].
      exfalso. apply Hk. by apply (list_elem_of_fmap_2 fst) in Hin.
    + rewrite IH by done. naive_solver.
Qed.

Lemma dict_get_is_Some d k : is_Some (dict_get d k) ↔ k ∈ d.*1.
Proof.
  rewrite <-not_eq_None_Some, dict_get_None.
  destruct (decide (k ∈ d.*1)); naive_solver.
Qed.
End dict_keys.

(** *** The records of a scan *)

Lemma store_keys_NoDup (fs : list (rel_path * option ast)) mi :
  NoDup mi.*1 → NoDup (foldl store mi fs).*1.
Proof.
  revert mi. induction fs as [|f fs IH]; intros mi Hnd; [done|].
  simpl. apply IH. by apply dict_set_keys_NoDup.
Qed.

(** Files with distinct names give one record each, in reading order. *)
Lemma store_keys_distinct (fs : list (rel_path * option ast)) mi :
  NoDup (mi.*1 ++ (to_fqn <$> fs.*1)) →
  (foldl store mi fs).*1 = mi.*1 ++ (to_fqn <$> fs.*1).
Proof.
  revert mi. induction fs as [|f fs IH]; intros mi Hnd; simpl.
  - by rewrite app_nil_r.
  - assert (Hf : to_fqn f.1 ∉ mi.*1).
    { apply NoDup_app in Hnd as (_ & Hdis & _). intros Hin.
      apply (Hdis _ Hin). left. }
    assert (Hk : (store mi f).*1 = mi.*1 ++ [to_fqn f.1]).
    { unfold store. rewrite dict_set_keys. by rewrite decide_False. }
    rewrite IH; rewrite Hk, <-?app_assoc; done.
Qed.

(** Every source file that the walk reads is a source file of the tree. *)
Lemma os_walk_pruned (prune : list string → bool) (n : fs_node) :
  ∀ root e, e ∈ os_walk prune root n → e ∈ os_walk (λ _, false) root n.
Proof.
  induction n as [name source|name children IH] using fs_node_ind_nested;
    intros root e; simpl; [tauto|].
  rewrite !elem_of_cons. intros [->|Hin]; [by left|]. right.
  destruct (prune _); [by apply elem_of_nil in Hin|].
  apply elem_of_flat_map in Hin as (c & Hin & Hc).
  apply elem_of_flat_map. exists c. split; [done|].
  rewrite Forall_forall in IH. by apply IH.
Qed.

Lemma scanned_in_source e f : f ∈ scanned_in e → f ∈ source_files_in e.
Proof.
  destruct e as [root files]. unfold scanned_in, source_files_in.
  destruct (is_venv _); [by intros ?%elem_of_nil|done].
Qed.

Lemma scanned_files_source top f : f ∈ scanned_files top → f ∈ source_files top.
Proof.
  unfold scanned_files, scanned_from, source_files.
  change (f ∈ flat_map scanned_in (os_walk is_venv [] top) →
          f ∈ flat_map source_files_in (os_walk (λ _, false) [] top)).
  rewrite !elem_of_flat_map. intros (e & He & Hf).
  exists e. split; [by apply os_walk_pruned in He|by apply scanned_in_source].
Qed.

Lemma elem_of_source_files_in root files p source :
  (p, source) ∈ source_files_in (root, files) ↔
  ∃ file, p = root ++ [file] ∧ (file, source) ∈ files ∧ endswith file ".py" = true.
Proof.
  unfold source_files_in. rewrite list_elem_of_omap. split.
  - intros ([file source'] & Hin & Heq). destruct (endswith file ".py") eqn:Hpy; [|done].
    injection Heq as <- <-. by exists file.
  - intros (file & -> & Hin & Hpy). exists (file, source). by rewrite Hpy.
Qed.

(** *** The catalog *)

Lemma elem_of_survey_dir_modules s root files t :
  t ∈ all_local_modules (survey_dir s (root, files)) ↔
  t ∈ all_local_modules s ∨
  ∃ p source, (p, source) ∈ source_files_in (root, files) ∧ t = to_fqn p.
Proof.
  cbn [survey_dir all_local_modules].
  setoid_rewrite elem_of_source_files_in.
  generalize (all_local_modules s). induction files as [|[file source] files IH];
    intros acc; simpl.
  - split; [by left|]. intros [?|(p & source & (file & _ & Hin & _) & _)]; [done|].
    by apply elem_of_nil in Hin.
  - rewrite IH. setoid_rewrite elem_of_cons. split.
    + intros [Hacc|(p & src & (f & -> & Hin & Hpy) & ->)].
      * destruct (endswith file ".py") eqn:Hpy; [|by left].
        apply elem_of_union in Hacc as [->%elem_of_singleton|Hacc]; [|by left].
        right. exists (root ++ [file]), source. split; [|done].
        exists file. auto.
      * right. exists (root ++ [f]), src. split; [|done]. exists f. auto.
    + intros [Hacc|(p & src & (f & -> & [[= -> ->]|Hin] & Hpy) & ->)].
      * left. destruct (endswith file ".py"); [|done].
        apply elem_of_union. by right.
      * left. rewrite Hpy. apply elem_of_union. left. by apply elem_of_singleton.
      * right. exists (root ++ [f]), src. split; [|done]. exists f. auto.
Qed.

Lemma elem_of_survey_dir_packages s root files t :
  t ∈ local_packages (survey_dir s (root, files)) ↔
  t ∈ local_packages s ∨ ("__init__.py" ∈ files.*1 ∧ t = join_dot root).
Proof.
  cbn [survey_dir local_packages]. case_bool_decide as Hinit.
  - rewrite elem_of_union, elem_of_singleton. naive_solver.
  - naive_solver.
Qed.

Lemma elem_of_survey_modules entries : ∀ s t,
  t ∈ all_local_modules (foldl survey_dir s entries) ↔
  t ∈ all_local_modules s ∨
  ∃ p source, (p, source) ∈ flat_map source_files_in entries ∧ t = to_fqn p.
Proof.
  induction entries as [|[root files] entries IH]; intros s t;
    cbn [foldl flat_map].
  - split; [by left|]. intros [?|(p & source & Hin & _)]; [done|].
    by apply elem_of_nil in Hin.
  - rewrite IH, elem_of_survey_dir_modules.
    setoid_rewrite elem_of_app. naive_solver.
Qed.

Lemma elem_of_survey_packages entries : ∀ s t,
  t ∈ local_packages (foldl survey_dir s entries) ↔
  t ∈ local_packages s ∨
  ∃ d, d ∈ omap (λ '(root, files),
                   if bool_decide ("__init__.py" ∈ files.*1) then Some root
                   else None) entries
       ∧ t = join_dot d.
Proof.
  induction entries as [|[root files] entries IH]; intros s t;
    cbn [foldl omap list_omap].
  - split; [by left|]. intros [?|(p & Hin & _)]; [done|].
    by apply elem_of_nil in Hin.
  - rewrite IH, elem_of_survey_dir_packages. case_bool_decide as Hinit.
    + setoid_rewrite elem_of_cons. naive_solver.
    + naive_solver.
Qed.

Lemma scan_result_modules top s t :
  t ∈ all_local_modules (scan_result top s) ↔
  ∃ p source, (p, source) ∈ source_files top ∧ t = to_fqn p.
Proof.
  unfold scan_result, _find_local_packages_and_modules.
  cbn [_categorize_imports all_local_modules module_info].
  rewrite elem_of_survey_modules. cbn [all_local_modules]. split.
  - intros [Hin|H]; [by apply not_elem_of_empty in Hin|done].
  - by right.
Qed.

Lemma scan_result_packages top s t :
  t ∈ local_packages (scan_result top s) ↔
  ∃ d, d ∈ package_dirs top ∧ t = join_dot d.
Proof.
  unfold scan_result, _find_local_packages_and_modules.
  cbn [_categorize_imports local_packages module_info].
  rewrite elem_of_survey_packages. cbn [local_packages]. split.
  - intros [Hin|H]; [by apply not_elem_of_empty in Hin|done].
  - by right.
Qed.

(** X11. Scanning a directory rebuilds the catalog from the whole tree: the
    local modules are the names of all its source files, those of virtual
    environments included, and the local packages are the dotted paths of
    the directories that hold an [__init__.py]. Nothing of the catalog of an
    earlier scan is left. *)
Theorem scan_catalog (name : string) (children : list fs_node) (s : scanner) :
  ∃ s', scan (Some (Dir name children)) s = Ok s' ∧
    (∀ t, t ∈ all_local_modules s' ↔
          ∃ p source, (p, source) ∈ source_files (Dir name children) ∧ t = to_fqn p) ∧
    (∀ t, t ∈ local_packages s' ↔
          ∃ d, d ∈ package_dirs (Dir name children) ∧ t = join_dot d).
Proof.
  eexists. split; [apply scan_directory|]. split; intros t.
  - apply scan_result_modules.
  - apply scan_result_packages.
Qed.

(** *** The records after a scan *)

Lemma scan_result_keys top s :
  (module_info (scan_result top s)).*1 = (foldl store [] (scanned_files top)).*1.
Proof.
  unfold scan_result. cbn [_categorize_imports module_info].
  rewrite <-list_fmap_compose. apply list_fmap_ext. by intros ? [k d].
Qed.

Lemma scan_result_keys_NoDup top s : NoDup (module_info (scan_result top s)).*1.
Proof. rewrite scan_result_keys. apply store_keys_NoDup, NoDup_nil_2. Qed.

(** What a record holds when [scan] returns. *)
Lemma scan_result_record top s fqn data :
  (fqn, data) ∈ module_info (scan_result top s) →
  ∃ p source,
    (p, source) ∈ scanned_files top ∧ fqn = to_fqn p ∧
    data = {| path := p; imports := scanned_targets fqn source;
              internal_imports :=
                Some (filter (λ t, is_internal (scan_result top s) t)
                        (scanned_targets fqn source));
              external_imports :=
                Some (filter (λ t, ¬ is_internal (scan_result top s) t)
                        (scanned_targets fqn source)) |}.
Proof.
  unfold scan_result at 1. intros (data0 & Hin & ->)%elem_of_categorize_imports.
  cbn [module_info] in Hin.
  apply elem_of_foldl_store in Hin as [Hin|(p & source & Hin & -> & ->)].
  - by apply elem_of_nil in Hin.
  - exists p, source. split_and!; [done..|]. by rewrite categorize_filter.
Qed.

Lemma scanned_files_py top p source :
  (p, source) ∈ scanned_files top → ∃ dirs stem, p = dirs ++ [stem +:+ ".py"].
Proof.
  intros Hin%scanned_files_source. unfold source_files in Hin.
  change ((p, source) ∈ flat_map source_files_in (os_walk (λ _, false) [] top))
    in Hin.
  apply elem_of_flat_map in Hin as ([root files] & _ & Hin).
  apply elem_of_source_files_in in Hin as (file & -> & _ & Hpy).
  apply endswith_spec in Hpy as [stem ->]. eauto.
Qed.

(** X12. When the scan of a directory returns, no two records have the same
    name; each record is that of a source file that the walk read, under the
    name that [to_fqn] gives its path, with the import targets of that file;
    and the name is in the catalog of local modules. *)
Theorem scan_records (name : string) (children : list fs_node) (s : scanner) :
  ∃ s', scan (Some (Dir name children)) s = Ok s' ∧
    NoDup (module_info s').*1 ∧
    ∀ fqn data, (fqn, data) ∈ module_info s' →
      fqn = to_fqn (path data) ∧
      (∃ dirs stem, path data = dirs ++ [stem +:+ ".py"]) ∧
      (∃ source, (path data, source) ∈ scanned_files (Dir name children) ∧
                 imports data = scanned_targets fqn source) ∧
      fqn ∈ all_local_modules s'.
Proof.
  eexists. split; [apply scan_directory|]. split; [apply scan_result_keys_NoDup|].
  intros fqn data (p & source & Hin & -> & ->)%scan_result_record.
  cbn [path imports]. split_and!.
  - done.
  - by eapply scanned_files_py.
  - by exists source.
  - apply scan_result_modules. exists p, source. split; [|done].
    by apply scanned_files_source.
Qed.

(** *** One record for each file *)

Lemma dict_set_fresh {V} (d : dict V) k v :
  k ∉ d.*1 → dict_set k v d = d ++ [(k, v)].
Proof.
  induction d as [|[k' v'] d IH]; simpl; [done|].
  rewrite not_elem_of_cons. intros [Hne Hd].
  rewrite decide_False by done. by rewrite IH.
Qed.

Lemma store_distinct (fs : list (rel_path * option ast)) : ∀ mi,
  NoDup (mi.*1 ++ (to_fqn <$> fs.*1)) →
  foldl store mi fs
  = mi ++ ((λ f, (to_fqn f.1, scanned_record f.1 f.2)) <$> fs).
Proof.
  induction fs as [|f fs IH]; intros mi Hnd; simpl.
  - by rewrite app_nil_r.
  - assert (Hf : to_fqn f.1 ∉ mi.*1).
    { apply NoDup_app in Hnd as (_ & Hdis & _). intros Hin.
      apply (Hdis _ Hin). left. }
    unfold store at 2. rewrite dict_set_fresh by done.
    rewrite IH; rewrite ?fmap_app, <-?app_assoc; done.
Qed.

(** X13. When no two of the files read have the same name, the records are
    those of the files read, one for each, in the order in which the walk
    reads them. *)
Theorem scan_one_record_per_file (name : string) (children : list fs_node)
    (s : scanner) :
  NoDup (to_fqn <$> (scanned_files (Dir name children)).*1) →
  ∃ s', scan (Some (Dir name children)) s = Ok s' ∧
    module_info s'
    = (λ f, (to_fqn f.1, categorize s' (scanned_record f.1 f.2)))
        <$> scanned_files (Dir name children).
Proof.
  intros Hnd. eexists. split; [apply scan_directory|].
  unfold scan_result at 1. cbn [_categorize_imports module_info].
  rewrite store_distinct by done. rewrite app_nil_l, <-list_fmap_compose.
  apply list_fmap_ext. by intros _ [p source] _.
Qed.

Lemma scan_one_record_per_file_witness :
  NoDup (to_fqn <$> (scanned_files project_with_dangling_import).*1) ∧
  ∃ s', scan (Some project_with_dangling_import) new_scanner = Ok s' ∧
    module_info s'
    = (λ f, (to_fqn f.1, categorize s' (scanned_record f.1 f.2)))
        <$> scanned_files project_with_dangling_import.
Proof.
  assert (H : NoDup (to_fqn <$> (scanned_files project_with_dangling_import).*1)).
  { apply (bool_decide_unpack _). vm_compute. exact I. }
  split; [exact H|].
  exact (scan_one_record_per_file _ _ new_scanner H).
Defined.

(** X14. The state in which the scan of a directory returns does not depend
    on the state before it: records and catalog of an earlier scan are
    dropped, so that scanning again changes nothing. *)
Theorem scan_forgets_state (name : string) (children : list fs_node) :
  ∃ s', ∀ s, scan (Some (Dir name children)) s = Ok s'.
Proof.
  exists (scan_result (Dir name children) new_scanner). intros s.
  by rewrite scan_directory.
Qed.

(** *** The source walker and the record of its file *)

Lemma scan_nodes_missing fqn nodes mi :
  dict_get mi fqn = None →
  for_each nodes
    (λ node mi, for_each (import_targets fqn node) (append_import fqn) mi) mi
  = if decide (flat_map (import_targets fqn) nodes = []) then Ok mi
    else Raise KeyError.
Proof.
  intros Hget. induction nodes as [|n nodes IH]; [done|].
  cbn [for_each flat_map].
  destruct (import_targets fqn n) as [|t ts]; cbn [for_each app].
  - by rewrite Ok_bind, IH.
  - assert (Hraise : append_import fqn t mi = Raise KeyError).
    { unfold append_import. by rewrite Hget. }
    by rewrite Hraise.
Qed.

Lemma scan_file_missing source fqn mi :
  dict_get mi fqn = None →
  _scan_file source fqn mi
  = if decide (scanned_targets fqn source = []) then Ok mi else Raise KeyError.
Proof.
  intros Hget. destruct source as [tree|]; simpl; [|done].
  by apply scan_nodes_missing.
Qed.

(** X15. [_scan_file] needs the record of its file: when [module_info] has
    none under the name, a file without import statements, or one that does
    not parse, leaves the records as they are, and any other file raises
    [KeyError]. *)
Theorem scan_file_needs_record (source : option ast) (fqn : string)
    (mi : dict module_record) :
  dict_get mi fqn = None →
  _scan_file source fqn mi
  = if decide (scanned_targets fqn source = []) then Ok mi else Raise KeyError.
Proof.
  apply scan_file_missing.
Qed.

Lemma scan_file_needs_record_witness :
  dict_get ([] : dict module_record) "m" = None ∧
  _scan_file (Some flat_imports) "m" [] = Raise KeyError.
Proof.
  assert (H : dict_get ([] : dict module_record) "m" = None) by reflexivity.
  split; [exact H|].
  exact (scan_file_needs_record (Some flat_imports) "m" [] H).
Defined.

(** X16. [_scan_file] touches the record of its own file only: the names of
    the records, their order and every other record are as before. *)
Theorem scan_file_frame (source : option ast) (fqn : string)
    (mi mi' : dict module_record) :
  _scan_file source fqn mi = Ok mi' →
  mi'.*1 = mi.*1 ∧ ∀ k, k ≠ fqn → dict_get mi' k = dict_get mi k.
Proof.
  destruct (dict_get mi fqn) as [r|] eqn:Hget.
  - rewrite (scan_file_spec _ _ _ _ Hget). intros [= <-]. split.
    + rewrite dict_set_keys. rewrite decide_True; [done|].
      apply dict_get_is_Some. by rewrite Hget.
    + intros k Hk. by apply dict_get_set_ne.
  - rewrite (scan_file_missing _ _ _ Hget). case_decide; [|done].
    by intros [= <-].
Qed.

Lemma scan_file_frame_witness :
  _scan_file (Some flat_imports) "main" (module_info classifier_example)
  = Ok [("main", with_imports
                   {| path := ["main.py"];
                      imports := ["pkg.a"; "os"; "util"; "os"];
                      internal_imports := None; external_imports := None |}
                   ["os"; "sys"; "x"; "os"])] ∧
  ["main"] = (module_info classifier_example).*1 ∧
  ∀ k, k ≠ "main" →
    dict_get [("main", with_imports
                   {| path := ["main.py"];
                      imports := ["pkg.a"; "os"; "util"; "os"];
                      internal_imports := None; external_imports := None |}
                   ["os"; "sys"; "x"; "os"])] k
    = dict_get (module_info classifier_example) k.
Proof.
  assert (H : _scan_file (Some flat_imports) "main" (module_info classifier_example)
              = Ok [("main", with_imports
                   {| path := ["main.py"];
                      imports := ["pkg.a"; "os"; "util"; "os"];
                      internal_imports := None; external_imports := None |}
                   ["os"; "sys"; "x"; "os"])]) by reflexivity.
  split; [exact H|].
  exact (scan_file_frame _ _ _ _ H).
Defined.

(** *** Classification *)

(** X17. Classifying again changes nothing: the two lists of a record are
    rebuilt from its raw imports, not extended. *)
Theorem categorize_imports_idempotent (s : scanner) :
  _categorize_imports (_categorize_imports s) = _categorize_imports s.
Proof.
  unfold _categorize_imports.
  cbn [module_info local_packages all_local_modules].
  f_equal. rewrite <-list_fmap_compose. apply list_fmap_ext.
  intros _ [k d] _. simpl. f_equal. by rewrite !categorize_filter.
Qed.

(** *** The graph *)

Lemma build_graph_from (l : dict module_record) : ∀ acc : graph,
  NoDup (acc.*1 ++ l.*1) →
  foldl (λ graph '(mod_, data), dict_set mod_ (internal_set data) graph) acc l
  = acc ++ (prod_map id internal_set <$> l).
Proof.
  induction l as [|[k d] l IH]; intros acc Hnd; simpl.
  - by rewrite app_nil_r.
  - assert (Hk : k ∉ acc.*1).
    { apply NoDup_app in Hnd as (_ & Hdis & _). intros Hin.
      apply (Hdis _ Hin). left. }
    rewrite IH; rewrite dict_set_fresh by done.
    + by rewrite <-app_assoc.
    + rewrite fmap_app, <-app_assoc. done.
Qed.

Lemma build_graph_map s :
  NoDup (module_info s).*1 →
  build_graph s = prod_map id internal_set <$> module_info s.
Proof. intros Hnd. unfold build_graph. by rewrite (build_graph_from _ []). Qed.

Lemma graph_get_fmap (l : dict module_record) x :
  graph_get (prod_map id internal_set <$> l) x
  = default [] (internal_set <$> dict_get l x).
Proof.
  induction l as [|[k d] l IH]; simpl; [done|].
  destruct (decide (k = x)); [done|]. apply IH.
Qed.

Lemma build_graph_keys s :
  NoDup (module_info s).*1 → keys (build_graph s) = (module_info s).*1.
Proof.
  intros Hnd. rewrite build_graph_map by done. unfold keys.
  rewrite <-list_fmap_compose. apply list_fmap_ext. by intros ? [k d].
Qed.

Lemma build_graph_edge s x y :
  NoDup (module_info s).*1 →
  edge (build_graph s) x y ↔
  ∃ data internal, (x, data) ∈ module_info s ∧
                   internal_imports data = Some internal ∧ y ∈ internal.
Proof.
  intros Hnd. unfold edge. rewrite build_graph_map, graph_get_fmap by done.
  split.
  - destruct (dict_get (module_info s) x) as [data|] eqn:Hget; simpl;
      [|by intros ?%elem_of_nil].
    unfold internal_set, set_of. rewrite elem_of_remove_dups.
    destruct (internal_imports data) as [internal|] eqn:Hint; simpl;
      [|by intros ?%elem_of_nil].
    intros Hy. exists data, internal. split_and!; [|done..].
    by apply dict_get_Some_elem_of.
  - intros (data & internal & Hin & Hint & Hy).
    apply dict_get_Some_elem_of in Hin; [|done]. rewrite Hin. simpl.
    unfold internal_set, set_of. rewrite elem_of_remove_dups, Hint. done.
Qed.

(** X18. The graph has the records' names as its keys, in their order, and
    an edge for each internal import of a record and for nothing else: an
    external import is no edge, and a record that has not been classified
    has none. *)
Theorem build_graph_spec (s : scanner) :
  NoDup (module_info s).*1 →
  keys (build_graph s) = (module_info s).*1 ∧
  ∀ x y, edge (build_graph s) x y ↔
         ∃ data internal, (x, data) ∈ module_info s ∧
                          internal_imports data = Some internal ∧ y ∈ internal.
Proof.
  intros Hnd. split; [by apply build_graph_keys|].
  intros x y. by apply build_graph_edge.
Qed.

Lemma build_graph_spec_witness :
  NoDup (module_info (_categorize_imports classifier_example)).*1 ∧
  keys (build_graph (_categorize_imports classifier_example)) = ["main"] ∧
  (edge (build_graph (_categorize_imports classifier_example)) "main" "os" ↔
   ∃ data internal,
     ("main", data) ∈ module_info (_categorize_imports classifier_example) ∧
     internal_imports data = Some internal ∧ "os" ∈ internal).
Proof.
  assert (H : NoDup (module_info (_categorize_imports classifier_example)).*1).
  { apply (bool_decide_unpack _). vm_compute. exact I. }
  split; [exact H|].
  pose proof (build_graph_spec _ H) as [Hkeys Hedges].
  split; [exact Hkeys|exact (Hedges "main" "os")].
Defined.

(** X19. After the scan of a directory the graph has an edge from a module
    to each target of its imports that the catalog makes local, and no
    other edge. *)
Theorem scan_graph_edges (name : string) (children : list fs_node) (s : scanner) :
  ∃ s', scan (Some (Dir name children)) s = Ok s' ∧
    ∀ x y, edge (build_graph s') x y ↔
           ∃ data, (x, data) ∈ module_info s' ∧ y ∈ imports data ∧
                   (y ∈ all_local_modules s' ∨
                    hd EmptyString (split_dot y) ∈ local_packages s').
Proof.
  eexists. split; [apply scan_directory|]. intros x y.
  rewrite build_graph_edge by apply scan_result_keys_NoDup. split.
  - intros (data & internal & Hin & Hint & Hy). exists data.
    destruct (scan_result_record _ _ _ _ Hin) as (p & source & _ & _ & ->).
    injection Hint as <-. apply list_elem_of_filter in Hy as [Hy Hin'].
    split_and!; [done..|]. by apply is_internal_rule.
  - intros (data & Hin & Hy & Hlocal). exists data.
    destruct (scan_result_record _ _ _ _ Hin) as (p & source & _ & _ & ->).
    eexists. split_and!; [done..|].
    apply list_elem_of_filter. split; [|done]. by apply is_internal_rule.
Qed.



(** ** Graphviz export *)

















